(** * TerminalViewport: write queue, chunk reconciliation, fit guard and
      kinetic touch scrolling

    A shallow embedding of
    [packages/ui/src/components/terminal/TerminalViewport.tsx].

    The component keeps its mutable state in React refs and in one closure
    object; both are modelled by records that the embedded functions take and
    return.  Calls that leave the component (to the xterm terminal, to the fit
    addon, to the resize handler) are appended to a log, so that their number
    and order can be stated.  JavaScript numbers that hold pixel positions and
    timestamps are modelled by rationals: every operation the engine performs
    on them ([+], [-], [*], [/], [Math.max], [Math.min], [Math.abs],
    [Math.sign], comparisons) is exact on [Q], and rounding of IEEE doubles is
    outside the model. *)

From Stdlib Require Import List String Bool Arith ZArith QArith Qminmax Qabs Qround Lia Lqa.
Import ListNotations.

Set Implicit Arguments.

(** [x < y] on numbers, as a test. *)
Definition Qltb (x y : Q) : bool := negb (Qle_bool y x).

(** ** Part I: write queue, reconciliation, fit *)

Module Viewport.

Local Open Scope string_scope.

(** [TerminalChunk] of [useTerminalStore]: the component reads [id] and
    [data] only. *)
Record TerminalChunk := mkChunk { id : Z; data : string }.

(** The bounding box of the container, as [getBoundingClientRect] reports
    it. *)
Record Rect := mkRect { width : Q; height : Q }.

(** Calls that cross the component's boundary. *)
Inductive Call :=
| TermReset                       (* terminal.reset() *)
| TermWrite (chunk : string)      (* terminal.write(chunk, callback) *)
| FitAddonFit                     (* fitAddon.fit() *)
| OnResize (cols rows : Z).       (* resizeHandlerRef.current(cols, rows) *)

(** What the mount cycle fixes: which refs are populated, the box of the
    container, what the fit addon does when asked ([None]: [fit()] throws,
    [Some (cols, rows)]: the grid of the terminal after the fit), and whether
    a [window] object exists. *)
Record Host := mkHost {
  terminalRef : bool;
  fitAddonRef : bool;
  containerRef : option Rect;
  fitGrid : option (Z * Z);
  hasWindow : bool
}.

(** The four refs that [resetWriteState] owns. *)
Record Refs := mkRefs {
  writeQueueRef : list string;
  isWritingRef : bool;
  processedCountRef : nat;
  firstChunkIdRef : option Z
}.

(** The component together with the part of the environment that its
    callbacks live in: the writes handed to the terminal whose completion
    callback has not run yet (oldest first), the number of pending
    [setTimeout(consumeNext, 0)] timers, the log of outgoing calls and the
    payloads handed to [enqueueWrite] (a record of the calls, not a variable
    of the program). *)
Record World := mkWorld {
  host : Host;
  refs : Refs;
  inFlight : list string;
  timers : nat;
  calls : list Call;
  enqueued : list string
}.

Definition withRefs (r : Refs) (w : World) : World :=
  mkWorld (host w) r (inFlight w) (timers w) (calls w) (enqueued w).

Definition setWriteQueue (q : list string) (w : World) : World :=
  withRefs (mkRefs q (isWritingRef (refs w)) (processedCountRef (refs w))
                   (firstChunkIdRef (refs w))) w.

Definition setIsWriting (b : bool) (w : World) : World :=
  withRefs (mkRefs (writeQueueRef (refs w)) b (processedCountRef (refs w))
                   (firstChunkIdRef (refs w))) w.

Definition setProcessedCount (n : nat) (w : World) : World :=
  withRefs (mkRefs (writeQueueRef (refs w)) (isWritingRef (refs w)) n
                   (firstChunkIdRef (refs w))) w.

Definition setFirstChunkId (i : option Z) (w : World) : World :=
  withRefs (mkRefs (writeQueueRef (refs w)) (isWritingRef (refs w))
                   (processedCountRef (refs w)) i) w.

Definition call (c : Call) (w : World) : World :=
  mkWorld (host w) (refs w) (inFlight w) (timers w) (calls w ++ [c]) (enqueued w).

(** [term.write(chunk, callback)]: the call is logged and the callback waits
    in [inFlight]. *)
Definition termWrite (chunk : string) (w : World) : World :=
  mkWorld (host w) (refs w) (inFlight w ++ [chunk]) (timers w)
          (calls w ++ [TermWrite chunk]) (enqueued w).

Definition setTimeout (w : World) : World :=
  mkWorld (host w) (refs w) (inFlight w) (S (timers w)) (calls w) (enqueued w).

Definition noteEnqueue (payload : string) (w : World) : World :=
  mkWorld (host w) (refs w) (inFlight w) (timers w) (calls w)
          (enqueued w ++ [payload]).

(** [resetWriteState], lines 51-56. *)
Definition resetWriteState (w : World) : World :=
  withRefs (mkRefs [] false 0 None) w.

(** [fitTerminal], lines 58-73.  A throwing [fitAddon.fit()] is swallowed by
    the [try], and then the resize handler is not reached. *)
Definition fitTerminal (w : World) : World :=
  if negb (fitAddonRef (host w)) || negb (terminalRef (host w)) then w
  else match containerRef (host w) with
       | None => w
       | Some rect =>
           if Qltb (width rect) 24 || Qltb (height rect) 24 then w
           else match fitGrid (host w) with
                | None => call FitAddonFit w
                | Some (cols, rows) => call (OnResize cols rows) (call FitAddonFit w)
                end
       end.

(** [consumeNext], lines 80-104. *)
Definition consumeNext (w : World) : World :=
  if negb (terminalRef (host w)) then resetWriteState w
  else match writeQueueRef (refs w) with
       | [] => setIsWriting false w
       | chunk :: rest =>
           termWrite chunk (setIsWriting true (setWriteQueue rest w))
       end.

(** [flushWriteQueue], lines 75-107. *)
Definition flushWriteQueue (w : World) : World :=
  if isWritingRef (refs w) then w else consumeNext w.

Definition isEmpty (s : string) : bool :=
  match s with EmptyString => true | _ => false end.

(** [enqueueWrite], lines 109-119.  [!data] holds of a string exactly when it
    is empty. *)
Definition enqueueWrite (payload : string) (w0 : World) : World :=
  let w := noteEnqueue payload w0 in
  if isEmpty payload then w
  else flushWriteQueue (setIsWriting false (setWriteQueue [payload] w)).

(** The completion callback of [term.write], lines 94-103, run for the oldest
    write in flight. *)
Definition writeDone (w : World) : World :=
  match inFlight w with
  | [] => w
  | _ :: rest =>
      let w1 := setIsWriting false
                  (mkWorld (host w) (refs w) rest (timers w) (calls w) (enqueued w)) in
      match writeQueueRef (refs w1) with
      | [] => w1
      | _ :: _ => if hasWindow (host w1) then setTimeout w1 else consumeNext w1
      end
  end.

(** A pending [setTimeout(consumeNext, 0)] fires. *)
Definition timerFires (w : World) : World :=
  match timers w with
  | O => w
  | S n => consumeNext (mkWorld (host w) (refs w) (inFlight w) n (calls w) (enqueued w))
  end.

(** [pending.map((chunk) => chunk.data).join('')]. *)
Definition joinData (pending : list TerminalChunk) : string :=
  String.concat "" (map data pending).

Definition sameId (a : option Z) (b : Z) : bool :=
  match a with Some x => Z.eqb x b | None => false end.

(** The reset block of the reconciliation effect, lines 511-515. *)
Definition resetForNewSequence (currentFirstId : Z) (w : World) : World :=
  setFirstChunkId (Some currentFirstId) (resetWriteState (call TermReset w)).

(** The delta block of the reconciliation effect, lines 517-521. *)
Definition writeDelta (chunks : list TerminalChunk) (w : World) : World :=
  if Nat.ltb (processedCountRef (refs w)) (List.length chunks) then
    setProcessedCount (List.length chunks)
      (enqueueWrite (joinData (skipn (processedCountRef (refs w)) chunks)) w)
  else w.

(** The effect that runs when [chunks] changes, lines 488-522. *)
Definition reconcileChunks (chunks : list TerminalChunk) (w : World) : World :=
  if negb (terminalRef (host w)) then w
  else match chunks with
       | [] =>
           if Nat.eqb (processedCountRef (refs w)) 0 then w
           else fitTerminal (resetWriteState (call TermReset w))
       | first :: _ =>
           let currentFirstId := id first in
           let w1 := match firstChunkIdRef (refs w) with
                     | None => setFirstChunkId (Some currentFirstId) w
                     | Some _ => w
                     end in
           let shouldReset :=
             negb (sameId (firstChunkIdRef (refs w1)) currentFirstId)
             || Nat.ltb (List.length chunks) (processedCountRef (refs w1)) in
           let w2 := if shouldReset then resetForNewSequence currentFirstId w1
                     else w1 in
           writeDelta chunks w2
       end.

(** A freshly mounted viewport in a browser, with an 800x600 container. *)
Definition mounted : World :=
  mkWorld (mkHost true true (Some (mkRect 800 600)) (Some (80%Z, 24%Z)) true)
          (mkRefs [] false 0 None) [] 0 [] [].


(** At most one write is waiting for its completion callback. *)
Definition serialised (w : World) : Prop := (List.length (inFlight w) <= 1)%nat.

(** Nothing is left to do: the recorded first id is the current one and the
    cursor stands at the end of the sequence. *)
Definition settled (chunks : list TerminalChunk) (w : World) : Prop :=
  match chunks with
  | [] => processedCountRef (refs w) = O
  | first :: _ =>
      firstChunkIdRef (refs w) = Some (id first)
      /\ processedCountRef (refs w) = List.length chunks
  end.

(** What [enqueueWrite] hands to the terminal: the payload, unless it is
    empty. *)
Definition written (payload : string) : list Call :=
  if isEmpty payload then [] else [TermWrite payload].

(** What a fit that goes ahead calls: the fit addon, and the resize handler
    unless the addon threw. *)
Definition fitCalls (h : Host) : list Call :=
  FitAddonFit :: match fitGrid h with
                 | Some (cols, rows) => [OnResize cols rows]
                 | None => []
                 end.

(** A mounted viewport whose container measures [w] by [h] pixels. *)
Definition boxed (w h : Q) : World :=
  mkWorld (mkHost true true (Some (mkRect w h)) (Some (80%Z, 24%Z)) true)
          (mkRefs [] false 0 None) [] 0 [] [].

End Viewport.

(** ** Part II: the kinetic scroll engine ([setupTouchScroll], lines 121-411) *)

Module Kinetic.

Local Open Scope Q_scope.

Definition baseScrollMultiplier : Q := 2.2.
Definition maxScrollBoost : Q := 2.8.
Definition boostDenominator : Q := 25.
Definition velocityAlpha : Q := 0.25.
Definition maxVelocity : Q := 8.
Definition minVelocity : Q := 0.05.
Definition deceleration : Q := 0.015.

(** The [.xterm-viewport] element: the three properties the engine reads or
    writes. *)
Record Element := mkElement {
  scrollTop : Q;
  scrollHeight : Q;
  clientHeight : Q
}.

(** The [state] object of the closure (with the [pointerId] that
    [Object.assign] adds on the pointer path), the viewport element, and the
    animation-frame callbacks the browser holds: each pending [step] with its
    handle and the [lastFrame] its closure captured.  [nextHandle] is the
    number the next [requestAnimationFrame] returns. *)
Record Engine := mkEngine {
  lastY : option Q;
  lastTime : option Q;
  velocity : Q;
  rafId : option nat;
  pointerId : option Z;
  viewport : Element;
  pending : list (nat * Q);
  nextHandle : nat
}.

Definition setLast (y t : option Q) (e : Engine) : Engine :=
  mkEngine y t (velocity e) (rafId e) (pointerId e) (viewport e) (pending e)
           (nextHandle e).

Definition setVelocity (v : Q) (e : Engine) : Engine :=
  mkEngine (lastY e) (lastTime e) v (rafId e) (pointerId e) (viewport e)
           (pending e) (nextHandle e).

Definition setPointerId (p : option Z) (e : Engine) : Engine :=
  mkEngine (lastY e) (lastTime e) (velocity e) (rafId e) p (viewport e)
           (pending e) (nextHandle e).

Definition setViewport (v : Element) (e : Engine) : Engine :=
  mkEngine (lastY e) (lastTime e) (velocity e) (rafId e) (pointerId e) v
           (pending e) (nextHandle e).

(** [Math.sign]. *)
Definition sign (x : Q) : Q := inject_Z (Z.sgn (Qnum x)).

(** [getMaxScrollTop], line 156. *)
Definition getMaxScrollTop (v : Element) : Q :=
  Qmax 0 (scrollHeight v - clientHeight v).

(** [setScrollTop], lines 158-161. *)
Definition setScrollTop (nextScrollTop : Q) (v : Element) : Element :=
  let maxScrollTop := getMaxScrollTop v in
  mkElement (Qmax 0 (Qmin maxScrollTop nextScrollTop)) (scrollHeight v)
            (clientHeight v).

(** [scrollByPixels], lines 163-170: [None] is the [undefined] of the early
    return, [Some moved] the boolean of the last line. *)
Definition scrollByPixels (deltaPixels : Q) (v : Element) : Element * option bool :=
  if Qeq_bool deltaPixels 0 then (v, None)
  else
    let previous := scrollTop v in
    let v' := setScrollTop (previous + deltaPixels) v in
    (v', Some (negb (Qeq_bool (scrollTop v') previous))).

(** [window.cancelAnimationFrame]. *)
Definition cancelAnimationFrame (h : nat) (e : Engine) : Engine :=
  mkEngine (lastY e) (lastTime e) (velocity e) (rafId e) (pointerId e)
           (viewport e)
           (filter (fun cb => negb (Nat.eqb (fst cb) h)) (pending e))
           (nextHandle e).

(** [stopKinetic], lines 172-177. *)
Definition stopKinetic (e : Engine) : Engine :=
  let e1 := match rafId e with
            | Some h => cancelAnimationFrame h e
            | None => e
            end in
  mkEngine (lastY e1) (lastTime e1) (velocity e1) None (pointerId e1)
           (viewport e1) (pending e1) (nextHandle e1).

(** [state.rafId = window.requestAnimationFrame(step)], with the [lastFrame]
    the scheduled closure will read. *)
Definition requestAnimationFrame (lastFrame : Q) (e : Engine) : Engine :=
  mkEngine (lastY e) (lastTime e) (velocity e) (Some (nextHandle e))
           (pointerId e) (viewport e)
           (pending e ++ [(nextHandle e, lastFrame)]) (S (nextHandle e)).

(** Lines 222-223 and 342-343. *)
Definition scrollMultiplier (deltaY : Q) : Q :=
  baseScrollMultiplier + Qmin maxScrollBoost (Qabs deltaY / boostDenominator).

(** Lines 227-231 and 347-351. *)
Definition clampVelocity (v : Q) : Q :=
  if Qltb maxVelocity v then maxVelocity
  else if Qltb v (- maxVelocity) then - maxVelocity
  else v.

(** What a move sample does once it has passed the jitter floor: lines
    221-237 of [handlePointerMove], repeated as lines 341-355 of
    [handleTouchMove]. *)
Definition trackSample (deltaY elapsed : Q) (e : Engine) : Engine :=
  let dt := Qmax elapsed 8 in
  let deltaPixels := deltaY * scrollMultiplier deltaY in
  let instantVelocity := deltaPixels / dt in
  let e1 := setVelocity
              (clampVelocity (velocity e * (1 - velocityAlpha)
                              + instantVelocity * velocityAlpha)) e in
  setViewport (fst (scrollByPixels deltaPixels (viewport e1))) e1.

(** One run of the [step] callback, lines 261-279 and 372-390, at time
    [frameTime], for the closure whose [lastFrame] is given. *)
Definition step (frameTime lastFrame : Q) (e : Engine) : Engine :=
  let dt := Qmax (frameTime - lastFrame) 8 in
  let (v', result) := scrollByPixels (velocity e * dt) (viewport e) in
  let moved := match result with Some b => b | None => false end in
  let sgn := sign (velocity e) in
  let nextMagnitude := Qmax 0 (Qabs (velocity e) - deceleration * dt) in
  let e1 := setVelocity (nextMagnitude * sgn) (setViewport v' e) in
  if negb moved || Qle_bool nextMagnitude minVelocity then
    setVelocity 0 (stopKinetic e1)
  else requestAnimationFrame frameTime e1.

(** The tail of [handlePointerUp] and of [handleTouchEnd], lines 255-281 and
    366-392, in a browser ([window] is defined). *)
Definition release (now : Q) (e : Engine) : Engine :=
  if Qltb (Qabs (velocity e)) minVelocity then setVelocity 0 e
  else requestAnimationFrame now e.

Inductive PointerType := touch | mouse | pen.

Record PointerEvent := mkPointerEvent {
  pointerType : PointerType;
  eventPointerId : Z;
  clientY : Q
}.

Definition isTouch (t : PointerType) : bool :=
  match t with touch => true | _ => false end.

Definition samePointer (p : option Z) (i : Z) : bool :=
  match p with Some x => Z.eqb x i | None => false end.

(** [handlePointerDown], lines 185-197. *)
Definition handlePointerDown (event : PointerEvent) (now : Q) (e : Engine) : Engine :=
  if negb (isTouch (pointerType event)) then e
  else
    setVelocity 0
      (setLast (Some (clientY event)) (Some now)
         (setPointerId (Some (eventPointerId event)) (stopKinetic e))).

(** [handlePointerMove], lines 199-238. *)
Definition handlePointerMove (event : PointerEvent) (now : Q) (e : Engine) : Engine :=
  if negb (isTouch (pointerType event))
     || negb (samePointer (pointerId e) (eventPointerId event)) then e
  else match lastY e with
       | None => setLast (Some (clientY event)) (Some now) e
       | Some previousY =>
           let previousTime := match lastTime e with Some t => t | None => now end in
           let currentTime := now in
           let e1 := setLast (Some (clientY event)) (Some currentTime) e in
           let deltaY := previousY - clientY event in
           if Qltb (Qabs deltaY) 1 then e1
           else trackSample deltaY (currentTime - previousTime) e1
       end.

(** [handlePointerUp], lines 240-282; also the [pointercancel] listener. *)
Definition handlePointerUp (event : PointerEvent) (now : Q) (e : Engine) : Engine :=
  if negb (isTouch (pointerType event))
     || negb (samePointer (pointerId e) (eventPointerId event)) then e
  else release now (setLast None None (setPointerId None e)).

(** [handleTouchStart], lines 304-312; [touches] lists the [clientY] of
    [event.touches]. *)
Definition handleTouchStart (touches : list Q) (now : Q) (e : Engine) : Engine :=
  match touches with
  | [y] => setVelocity 0 (setLast (Some y) (Some now) (stopKinetic e))
  | _ => e
  end.

(** [handleTouchMove], lines 314-356. *)
Definition handleTouchMove (touches : list Q) (now : Q) (e : Engine) : Engine :=
  match touches with
  | [currentY] =>
      match lastY e with
      | None => setLast (Some currentY) (Some now) e
      | Some previousY =>
          let previousTime := match lastTime e with Some t => t | None => now end in
          let currentTime := now in
          let e1 := setLast (Some currentY) (Some currentTime) e in
          let deltaY := previousY - currentY in
          if Qltb (Qabs deltaY) 1 then e1
          else trackSample deltaY (currentTime - previousTime) e1
      end
  | _ => stopKinetic (setVelocity 0 (setLast None None e))
  end.

(** [handleTouchEnd], lines 358-393; also the [touchcancel] listener. *)
Definition handleTouchEnd (now : Q) (e : Engine) : Engine :=
  release now (setLast None None e).

(** The browser runs the oldest pending animation-frame callback at time
    [now]. *)
Definition animationFrame (now : Q) (e : Engine) : Engine :=
  match pending e with
  | [] => e
  | (_, lastFrame) :: rest =>
      step now lastFrame
        (mkEngine (lastY e) (lastTime e) (velocity e) (rafId e) (pointerId e)
                  (viewport e) rest (nextHandle e))
  end.

(** What can happen to the engine, on either input path. *)
Inductive Input :=
| PointerDown (event : PointerEvent) (now : Q)
| PointerMove (event : PointerEvent) (now : Q)
| PointerUp (event : PointerEvent) (now : Q)
| TouchStart (touches : list Q) (now : Q)
| TouchMove (touches : list Q) (now : Q)
| TouchEnd (now : Q)
| AnimationFrame (now : Q).

Definition react (e : Engine) (i : Input) : Engine :=
  match i with
  | PointerDown ev now => handlePointerDown ev now e
  | PointerMove ev now => handlePointerMove ev now e
  | PointerUp ev now => handlePointerUp ev now e
  | TouchStart ts now => handleTouchStart ts now e
  | TouchMove ts now => handleTouchMove ts now e
  | TouchEnd now => handleTouchEnd now e
  | AnimationFrame now => animationFrame now e
  end.

(** The inertial animation left to itself: the browser delivers frames at
    the given times for as long as a callback is pending.  Returns how many
    times [step] ran. *)
Fixpoint runFrames (times : list Q) (e : Engine) : nat * Engine :=
  match times with
  | [] => (O, e)
  | t :: rest =>
      match pending e with
      | [] => (O, e)
      | _ :: _ =>
          let (n, e') := runFrames rest (animationFrame t e) in (S n, e')
      end
  end.

(** The [dt] of each frame of such a run, [lastFrame] being the time of the
    release. *)
Fixpoint frameIntervals (lastFrame : Q) (times : list Q) : list Q :=
  match times with
  | [] => []
  | t :: rest => Qmax (t - lastFrame) 8 :: frameIntervals t rest
  end.

(** A drag in progress at y = 100; the next sample comes 0.4 pixels away. *)
Definition dragging : Engine :=
  mkEngine (Some 100) (Some 0) 1.5 None (Some 7%Z) (mkElement 50 1000 100) [] 0.

(** The scroll offset lies in [[0, scrollHeight - clientHeight]]. *)
Definition inRange (v : Element) : Prop :=
  0 <= scrollTop v /\ scrollTop v <= scrollHeight v - clientHeight v.

(** Every write to [scrollTop] goes through [setScrollTop]. *)
Definition throughSetScrollTop (v v' : Element) : Prop :=
  v' = v \/ exists next, v' = setScrollTop next v.

(** Whether [scrollByPixels] reports a move: the [?? false] of [step]. *)
Definition moves (deltaPixels : Q) (v : Element) : bool :=
  match snd (scrollByPixels deltaPixels v) with
  | Some b => b
  | None => false
  end.

(** No animation is running. *)
Definition stopped (e : Engine) : Prop :=
  pending e = [] /\ rafId e = None /\ velocity e = 0.

(** The drag of [dragging], about to be released with velocity [v] over a
    viewport with room to scroll. *)
Definition flicked (v : Q) : Engine :=
  mkEngine (Some 100) (Some 0) v None (Some 7%Z) (mkElement 50 5000 100) [] 0.

(** Frames every 16 ms after a release at time 0. *)
Definition every16 (n : nat) : list Q :=
  map (fun k => inject_Z (Z.of_nat k) * 16) (seq 1 n).

(** The state right after a release at time [now]: [handleTouchEnd], or
    [handlePointerUp] for the touch pointer that is being tracked. *)
Definition releasedFrom (e : Engine) (now : Q) (e0 : Engine) : Prop :=
  e0 = handleTouchEnd now e
  \/ exists event,
       isTouch (pointerType event) = true
       /\ samePointer (pointerId e) (eventPointerId event) = true
       /\ e0 = handlePointerUp event now e.

End Kinetic.

(** ** The viewport as a whole: what can happen to it *)

Module Lifecycle.

Import Viewport.
Local Open Scope string_scope.
Local Open Scope list_scope.

(** [clear] of the imperative handle, lines 530-538.  The effect on
    [sessionKey], lines 469-478, makes the same three calls and then
    [terminal.focus()], of which the world keeps no record. *)
Definition clear (w : World) : World :=
  if negb (terminalRef (host w)) then w
  else fitTerminal (resetWriteState (call TermReset w)).

(** What can happen to a viewport between mount and unmount: the chunks
    change (the effect of lines 488-522 runs), a payload is handed to
    [enqueueWrite], the terminal completes the oldest write, a zero-delay
    timer fires, the owner calls [clear] or [fit] (the resize observer of
    lines 440-442 calls [fitTerminal] as well). *)
Inductive Event :=
| ChunksChanged (chunks : list TerminalChunk)
| Enqueued (payload : string)
| WriteCompleted
| TimerFired
| ClearCalled
| FitCalled.

Definition handle (w : World) (ev : Event) : World :=
  match ev with
  | ChunksChanged chunks => reconcileChunks chunks w
  | Enqueued payload => enqueueWrite payload w
  | WriteCompleted => writeDone w
  | TimerFired => timerFires w
  | ClearCalled => clear w
  | FitCalled => fitTerminal w
  end.

(** The payloads of the [terminal.write] calls of a log, in order. *)
Definition writesOf (log : list Call) : list string :=
  flat_map (fun c => match c with TermWrite chunk => [chunk] | _ => [] end) log.

Definition nonEmpty (s : string) : bool := negb (isEmpty s).

(** Nothing waits in the queue or in a timer, and the terminal was written
    exactly the non-empty payloads that were handed to [enqueueWrite], in that
    order. *)
Definition writeThrough (w : World) : Prop :=
  writeQueueRef (refs w) = []
  /\ timers w = O
  /\ writesOf (calls w) = filter nonEmpty (enqueued w).

(** Everything [fitTerminal] needs is there: both refs, and a container of at
    least 24 pixels each way. *)
Definition fitPossible (h : Host) : Prop :=
  fitAddonRef h = true /\ terminalRef h = true
  /\ exists rect, containerRef h = Some rect
                  /\ (24 <= width rect)%Q /\ (24 <= height rect)%Q.

(** The store was replaced rather than extended: the recorded first id is not
    the id [first] of the current first chunk, or the cursor is past the
    length [len] of the current sequence. *)
Definition replaced (first : Z) (len : nat) (r : Refs) : Prop :=
  (exists f, firstChunkIdRef r = Some f /\ f <> first)
  \/ (len < processedCountRef r)%nat.

(** A viewport whose terminal is gone while a write is in flight, a payload
    is queued and a timer is pending. *)
Definition orphaned : World :=
  mkWorld (mkHost false false (Some (mkRect 800 600)) (Some (80%Z, 24%Z)) false)
          (mkRefs ["late"] true 3 (Some 1%Z)) ["sent"] 1 [TermWrite "sent"] ["sent"].

End Lifecycle.

(** ** The engine over whole gestures *)

Module Gesture.

Import Kinetic.
Local Open Scope Q_scope.

(** The velocity is within the cap of [maxVelocity]. *)
Definition capped (e : Engine) : Prop := Qabs (velocity e) <= maxVelocity.

(** The inputs of the pointer path, animation frames included. *)
Definition pointerInput (i : Input) : bool :=
  match i with
  | PointerDown _ _ | PointerMove _ _ | PointerUp _ _ | AnimationFrame _ => true
  | TouchStart _ _ | TouchMove _ _ | TouchEnd _ => false
  end.

(** At most one animation callback is pending, it is the one [rafId] names,
    and none is pending while a pointer is tracked. *)
Definition oneLoop (e : Engine) : Prop :=
  pending e = []
  \/ (pointerId e = None
      /\ exists h lastFrame, pending e = [(h, lastFrame)] /\ rafId e = Some h).

(** Move samples, given as position and time, each less than a pixel from
    the one before; [y] is the position the first one is compared with. *)
Fixpoint jitterOnly (y : Q) (samples : list (Q * Q)) : Prop :=
  match samples with
  | [] => True
  | s :: rest => Qabs (y - fst s) < 1 /\ jitterOnly (fst s) rest
  end.

Definition pointerMoves (p : Z) (samples : list (Q * Q)) : list Input :=
  map (fun s => PointerMove (mkPointerEvent touch p (fst s)) (snd s)) samples.

Definition touchMoves (samples : list (Q * Q)) : list Input :=
  map (fun s => TouchMove [fst s] (snd s)) samples.

(** An engine in the middle of an inertial animation. *)
Definition coasting : Engine :=
  mkEngine None None 2 (Some 4%nat) None (mkElement 50 1000 100) [(4%nat, 0)] 5.

End Gesture.

(** ** The device-flow polling of [GitHubSettings] (lines 652-779) *)

Module DeviceFlow.

Local Open Scope string_scope.

(** [DeviceFlowStartResponse]: the two fields the polling logic reads. *)
Record DeviceFlowStartResponse := mkStart {
  deviceCode : string;
  interval : Q
}.

(** The two pieces of React state the polling depends on. *)
Record Polling := mkPolling {
  flow : option DeviceFlowStartResponse;
  pollIntervalMs : option Q
}.

(** What one poll comes back with: [pollOnce] threw, or returned a
    [DeviceFlowCompleteResponse], connected or not, the latter with its
    optional [status]. *)
Inductive PollResult :=
| PollThrew
| Connected
| NotConnected (status : option string).

(** [stopPolling], lines 660-666, on the state. *)
Definition stopPolling (st : Polling) : Polling := mkPolling (flow st) None.

(** The success path of [startConnect], lines 704-705. *)
Definition startConnect (payload : DeviceFlowStartResponse) (st : Polling) : Polling :=
  mkPolling (Some payload) (Some (Qmax 1 (interval payload) * 1000)%Q).

(** The updater [(prev) => (prev ? prev + 5000 : 5000)], line 759. *)
Definition slowDown (prev : option Q) : Q :=
  match prev with
  | Some ms => if Qeq_bool ms 0 then 5000%Q else (ms + 5000)%Q
  | None => 5000%Q
  end.

Definition statusIs (status : option string) (name : string) : bool :=
  match status with Some s => String.eqb s name | None => false end.

(** The body of the interval callback once [pollOnce] has settled, lines
    748-769. *)
Definition onPollResult (st : Polling) (r : PollResult) : Polling :=
  match r with
  | PollThrew => st
  | Connected => stopPolling (mkPolling None (pollIntervalMs st))
  | NotConnected status =>
      let st1 := if statusIs status "slow_down"
                 then mkPolling (flow st) (Some (slowDown (pollIntervalMs st)))
                 else st in
      if statusIs status "expired_token" || statusIs status "access_denied"
      then stopPolling (mkPolling None (pollIntervalMs st1))
      else st1
  end.

(** The Cancel button, lines 1097-1100, and the first two calls of
    [disconnect], lines 784-785. *)
Definition cancel (st : Polling) : Polling :=
  mkPolling None (pollIntervalMs (stopPolling st)).

(** The guard of the polling effect, lines 739-741: a timer is armed only
    with a non-empty device code and a non-zero interval. *)
Definition armed (st : Polling) : bool :=
  match flow st, pollIntervalMs st with
  | Some f, Some ms =>
      negb (match deviceCode f with EmptyString => true | _ => false end)
      && negb (Qeq_bool ms 0)
  | _, _ => false
  end.

(** A result that ends the flow. *)
Definition ends (r : PollResult) : bool :=
  match r with
  | PollThrew => false
  | Connected => true
  | NotConnected status =>
      statusIs status "expired_token" || statusIs status "access_denied"
  end.

(** Every interval the state holds is at least a second. *)
Definition floored (st : Polling) : Prop :=
  forall ms, pollIntervalMs st = Some ms -> (1000 <= ms)%Q.

End DeviceFlow.

(** ** Part III: properties of the write queue and of reconciliation *)

Section WriteQueue.

Import Viewport.
Local Open Scope string_scope.
Local Open Scope list_scope.

Lemma isEmpty_true (s : string) : isEmpty s = true <-> s = "".
Proof. destruct s; simpl; split; congruence. Qed.

Lemma enqueueWrite_host (payload : string) (w : World) :
  host (enqueueWrite payload w) = host w.
Proof.
  unfold enqueueWrite, flushWriteQueue, consumeNext; simpl.
  destruct (isEmpty payload); simpl; [reflexivity|].
  destruct (terminalRef (host w)); reflexivity.
Qed.

(** With a terminal mounted, [enqueueWrite] leaves the delivery cursor
    alone. *)
Lemma enqueueWrite_cursor (payload : string) (w : World) :
  terminalRef (host w) = true ->
  processedCountRef (refs (enqueueWrite payload w)) = processedCountRef (refs w)
  /\ firstChunkIdRef (refs (enqueueWrite payload w)) = firstChunkIdRef (refs w).
Proof.
  intros Ht. unfold enqueueWrite, flushWriteQueue, consumeNext; simpl.
  destruct (isEmpty payload); simpl; [split; reflexivity|].
  rewrite Ht; simpl. split; reflexivity.
Qed.

(** With a terminal mounted, a non-empty payload is written at once, whatever
    the busy flag said, and the queue is left empty. *)
Lemma enqueueWrite_writes (payload : string) (w : World) :
  terminalRef (host w) = true -> payload <> "" ->
  calls (enqueueWrite payload w) = calls w ++ [TermWrite payload]
  /\ inFlight (enqueueWrite payload w) = inFlight w ++ [payload]
  /\ writeQueueRef (refs (enqueueWrite payload w)) = []
  /\ isWritingRef (refs (enqueueWrite payload w)) = true.
Proof.
  intros Ht Hne. unfold enqueueWrite, flushWriteQueue, consumeNext; simpl.
  destruct (isEmpty payload) eqn:He.
  - apply isEmpty_true in He. contradiction.
  - simpl. rewrite Ht; simpl. repeat split; reflexivity.
Qed.

Lemma enqueueWrite_noted (payload : string) (w : World) :
  enqueued (enqueueWrite payload w) = enqueued w ++ [payload].
Proof.
  unfold enqueueWrite, flushWriteQueue, consumeNext; simpl.
  destruct (isEmpty payload); simpl; [reflexivity|].
  destruct (terminalRef (host w)); reflexivity.
Qed.

(** C10: [enqueueWrite ""] changes neither the refs (pending payload, busy
    flag, cursor), nor the writes in flight, nor the timers, nor the calls made
    to the rendering surface: no write is issued. *)
Theorem enqueue_empty_is_noop (w : World) :
  refs (enqueueWrite "" w) = refs w
  /\ inFlight (enqueueWrite "" w) = inFlight w
  /\ timers (enqueueWrite "" w) = timers w
  /\ calls (enqueueWrite "" w) = calls w
  /\ host (enqueueWrite "" w) = host w.
Proof. repeat split; reflexivity. Qed.

(** C1 fails on the code: a second [enqueueWrite] that arrives while the
    first write is still in flight clears the busy flag itself and writes at
    once, so two writes are outstanding and no completion callback has run
    between them; when the callback of the first write then runs, it clears
    the busy flag although the second write is still in flight. *)
Theorem enqueue_during_write_overlaps :
  let w1 := enqueueWrite "a" mounted in
  let w2 := enqueueWrite "b" w1 in
  isWritingRef (refs w1) = true
  /\ inFlight w1 = ["a"]
  /\ calls w2 = [TermWrite "a"; TermWrite "b"]
  /\ inFlight w2 = ["a"; "b"]
  /\ ~ serialised w2
  /\ inFlight (writeDone w2) = ["b"]
  /\ isWritingRef (refs (writeDone w2)) = false.
Proof.
  simpl. repeat split. unfold serialised. simpl. lia.
Qed.

End WriteQueue.

Section Reconciliation.

Import Viewport.
Local Open Scope string_scope.
Local Open Scope list_scope.

Lemma settled_fixed (chunks : list TerminalChunk) (w : World) :
  settled chunks w -> reconcileChunks chunks w = w.
Proof.
  unfold settled, reconcileChunks. intros H.
  destruct (terminalRef (host w)); simpl; [|reflexivity].
  destruct chunks as [|c rest].
  - rewrite H. reflexivity.
  - destruct H as [Hf Hp]. rewrite Hf. unfold sameId. rewrite Hf, Hp.
    rewrite Z.eqb_refl, Nat.ltb_irrefl. simpl.
    unfold writeDelta. rewrite Hp, Nat.ltb_irrefl. reflexivity.
Qed.

Lemma fitTerminal_refs (w : World) : refs (fitTerminal w) = refs w.
Proof.
  unfold fitTerminal.
  destruct (negb (fitAddonRef (host w)) || negb (terminalRef (host w))); [reflexivity|].
  destruct (containerRef (host w)) as [rect|]; [|reflexivity].
  destruct (Qltb (width rect) 24 || Qltb (height rect) 24); [reflexivity|].
  destruct (fitGrid (host w)) as [[c r]|]; reflexivity.
Qed.

Lemma fitTerminal_host (w : World) : host (fitTerminal w) = host w.
Proof.
  unfold fitTerminal.
  destruct (negb (fitAddonRef (host w)) || negb (terminalRef (host w))); [reflexivity|].
  destruct (containerRef (host w)) as [rect|]; [|reflexivity].
  destruct (Qltb (width rect) 24 || Qltb (height rect) 24); [reflexivity|].
  destruct (fitGrid (host w)) as [[c r]|]; reflexivity.
Qed.

Lemma writeDelta_settles (c : TerminalChunk) (rest : list TerminalChunk) (w : World) :
  terminalRef (host w) = true ->
  firstChunkIdRef (refs w) = Some (id c) ->
  (processedCountRef (refs w) <= List.length (c :: rest))%nat ->
  settled (c :: rest) (writeDelta (c :: rest) w).
Proof.
  intros Ht Hf Hle. unfold writeDelta.
  destruct (Nat.ltb (processedCountRef (refs w)) (List.length (c :: rest))) eqn:Hlt.
  - destruct (enqueueWrite_cursor
                (joinData (skipn (processedCountRef (refs w)) (c :: rest))) w Ht)
      as [_ Hfirst].
    split; simpl in *; [rewrite Hfirst; exact Hf | reflexivity].
  - apply Nat.ltb_ge in Hlt. split; [exact Hf | lia].
Qed.

Lemma writeDelta_host (chunks : list TerminalChunk) (w : World) :
  host (writeDelta chunks w) = host w.
Proof.
  unfold writeDelta.
  destruct (Nat.ltb (processedCountRef (refs w)) (List.length chunks)); [|reflexivity].
  simpl. apply enqueueWrite_host.
Qed.

Lemma reconcile_settles (chunks : list TerminalChunk) (w : World) :
  terminalRef (host w) = true -> settled chunks (reconcileChunks chunks w).
Proof.
  intros Ht. unfold reconcileChunks. rewrite Ht. simpl.
  destruct chunks as [|c rest].
  - destruct (Nat.eqb (processedCountRef (refs w)) 0) eqn:He.
    + apply Nat.eqb_eq in He. exact He.
    + simpl. rewrite fitTerminal_refs. reflexivity.
  - set (w1 := match firstChunkIdRef (refs w) with
               | None => setFirstChunkId (Some (id c)) w
               | Some _ => w
               end).
    assert (Ht1 : terminalRef (host w1) = true).
    { unfold w1. destruct (firstChunkIdRef (refs w)); exact Ht. }
    destruct (negb (sameId (firstChunkIdRef (refs w1)) (id c))
              || Nat.ltb (List.length (c :: rest)) (processedCountRef (refs w1)))
      eqn:Hreset.
    + apply writeDelta_settles; simpl; [exact Ht1 | reflexivity | lia].
    + apply orb_false_elim in Hreset. destruct Hreset as [Hid Hlen].
      apply negb_false_iff in Hid. apply Nat.ltb_ge in Hlen.
      apply writeDelta_settles; [exact Ht1 | | exact Hlen].
      unfold sameId in Hid.
      destruct (firstChunkIdRef (refs w1)) as [x|]; [|discriminate].
      apply Z.eqb_eq in Hid. congruence.
Qed.

Lemma reconcile_host (chunks : list TerminalChunk) (w : World) :
  host (reconcileChunks chunks w) = host w.
Proof.
  unfold reconcileChunks.
  destruct (terminalRef (host w)); simpl; [|reflexivity].
  destruct chunks as [|c rest].
  - destruct (Nat.eqb (processedCountRef (refs w)) 0); [reflexivity|].
    rewrite fitTerminal_host. reflexivity.
  - rewrite writeDelta_host.
    destruct (firstChunkIdRef (refs w)); simpl;
      match goal with |- context [if ?b then _ else _] => destruct b end;
      reflexivity.
Qed.

Lemma enqueueWrite_calls (payload : string) (w : World) :
  terminalRef (host w) = true ->
  calls (enqueueWrite payload w) = calls w ++ written payload
  /\ writeQueueRef (refs (enqueueWrite payload w)) =
       (if isEmpty payload then writeQueueRef (refs w) else []).
Proof.
  intros Ht. unfold enqueueWrite, flushWriteQueue, consumeNext, written; simpl.
  destruct (isEmpty payload); simpl.
  - rewrite app_nil_r. split; reflexivity.
  - rewrite Ht; simpl. split; reflexivity.
Qed.

(** C2: when the recorded first id differs from the id of the first chunk, or
    the cursor is past the end of the sequence, reconciliation first resets:
    there is a world [w1] in which the terminal has been reset, the write
    queue is empty, the cursor is 0 and the recorded first id is the current
    one, and nothing has been handed to [enqueueWrite] yet.  The delta is
    computed from [w1]: one payload, the data of the whole current sequence,
    is handed to [enqueueWrite], it is the only call that follows the reset,
    and the cursor ends at the length of the sequence. *)
Theorem reset_then_full_delta
    (c : TerminalChunk) (rest : list TerminalChunk) (w : World) :
  terminalRef (host w) = true ->
  (exists f, firstChunkIdRef (refs w) = Some f /\ f <> id c)
  \/ (List.length (c :: rest) < processedCountRef (refs w))%nat ->
  exists w1,
    calls w1 = calls w ++ [TermReset]
    /\ refs w1 = mkRefs [] false 0 (Some (id c))
    /\ enqueued w1 = enqueued w
    /\ reconcileChunks (c :: rest) w = writeDelta (c :: rest) w1
    /\ enqueued (reconcileChunks (c :: rest) w)
       = enqueued w ++ [joinData (c :: rest)]
    /\ calls (reconcileChunks (c :: rest) w)
       = calls w ++ TermReset :: written (joinData (c :: rest))
    /\ writeQueueRef (refs (reconcileChunks (c :: rest) w)) = []
    /\ firstChunkIdRef (refs (reconcileChunks (c :: rest) w)) = Some (id c)
    /\ processedCountRef (refs (reconcileChunks (c :: rest) w))
       = List.length (c :: rest).
Proof.
  intros Ht Hcond.
  set (w0 := match firstChunkIdRef (refs w) with
             | None => setFirstChunkId (Some (id c)) w
             | Some _ => w
             end).
  assert (Hw0 : host w0 = host w /\ calls w0 = calls w
                /\ enqueued w0 = enqueued w
                /\ processedCountRef (refs w0) = processedCountRef (refs w)).
  { unfold w0. destruct (firstChunkIdRef (refs w)); repeat split; reflexivity. }
  destruct Hw0 as (Hh & Hc & He & Hp).
  assert (Hreset : negb (sameId (firstChunkIdRef (refs w0)) (id c))
                   || Nat.ltb (List.length (c :: rest)) (processedCountRef (refs w0))
                   = true).
  { destruct Hcond as [(f & Hf & Hne) | Hlt].
    - unfold w0. rewrite Hf. rewrite Hf. simpl.
      apply Z.eqb_neq in Hne. rewrite Hne. reflexivity.
    - rewrite Hp. apply Nat.ltb_lt in Hlt. rewrite Hlt. apply orb_true_r. }
  set (w1 := resetForNewSequence (id c) w0).
  assert (Hrun : reconcileChunks (c :: rest) w = writeDelta (c :: rest) w1).
  { unfold reconcileChunks. rewrite Ht. simpl negb. cbv iota.
    fold w0. rewrite Hreset. reflexivity. }
  assert (Ht1 : terminalRef (host w1) = true).
  { unfold w1. simpl. rewrite Hh. exact Ht. }
  assert (Hdelta : writeDelta (c :: rest) w1
                   = setProcessedCount (List.length (c :: rest))
                       (enqueueWrite (joinData (c :: rest)) w1)).
  { unfold writeDelta. reflexivity. }
  exists w1. rewrite Hrun, Hdelta.
  destruct (enqueueWrite_calls (joinData (c :: rest)) w1 Ht1) as [Hcalls Hq].
  destruct (enqueueWrite_cursor (joinData (c :: rest)) w1 Ht1) as [_ Hfirst].
  split; [unfold w1; simpl; rewrite Hc; reflexivity|].
  split; [reflexivity|].
  split; [unfold w1; simpl; exact He|].
  split; [reflexivity|].
  split; [simpl; rewrite enqueueWrite_noted; unfold w1; simpl; rewrite He; reflexivity|].
  split.
  { simpl. rewrite Hcalls. unfold w1. simpl. rewrite Hc, <- app_assoc. reflexivity. }
  split.
  { simpl. rewrite Hq. destruct (isEmpty (joinData (c :: rest))); reflexivity. }
  split; [simpl; rewrite Hfirst; reflexivity | reflexivity].
Qed.

(** The instance of the specification: a store that started at id 5 was
    delivered, then replaced by one that starts at id 9. *)
Lemma reset_then_full_delta_witness :
  let delivered := reconcileChunks [mkChunk 5 "old"; mkChunk 6 "er"] mounted in
  terminalRef (host delivered) = true
  /\ firstChunkIdRef (refs delivered) = Some 5%Z
  /\ calls (reconcileChunks [mkChunk 9 "new"] delivered)
     = [TermWrite "older"; TermReset; TermWrite "new"].
Proof.
  intro delivered.
  split; [reflexivity|]. split; [reflexivity|].
  destruct (@reset_then_full_delta (mkChunk 9 "new") [] delivered) as (w1 & H).
  - reflexivity.
  - left. exists 5%Z. split; [reflexivity | discriminate].
  - destruct H as (_ & _ & _ & _ & _ & Hcalls & _). exact Hcalls.
Defined.

(** C3: without a reset condition and with the cursor short of the end,
    reconciliation hands exactly one payload to [enqueueWrite], the data of the
    chunks from the cursor on, in order; the terminal is not reset and receives
    that payload (if it is not the empty string) as its only call; the cursor
    ends at the length of the sequence. *)
Theorem delta_enqueued_once
    (c : TerminalChunk) (rest : list TerminalChunk) (w : World) :
  terminalRef (host w) = true ->
  firstChunkIdRef (refs w) = None \/ firstChunkIdRef (refs w) = Some (id c) ->
  (processedCountRef (refs w) < List.length (c :: rest))%nat ->
  let delta := joinData (skipn (processedCountRef (refs w)) (c :: rest)) in
  enqueued (reconcileChunks (c :: rest) w) = enqueued w ++ [delta]
  /\ calls (reconcileChunks (c :: rest) w) = calls w ++ written delta
  /\ processedCountRef (refs (reconcileChunks (c :: rest) w))
     = List.length (c :: rest).
Proof.
  intros Ht Hfirst Hlt delta.
  set (w0 := match firstChunkIdRef (refs w) with
             | None => setFirstChunkId (Some (id c)) w
             | Some _ => w
             end).
  assert (Hw0 : host w0 = host w /\ calls w0 = calls w
                /\ enqueued w0 = enqueued w
                /\ processedCountRef (refs w0) = processedCountRef (refs w)
                /\ firstChunkIdRef (refs w0) = Some (id c)).
  { unfold w0. destruct Hfirst as [Hf | Hf]; rewrite Hf;
      repeat split; try reflexivity; exact Hf. }
  destruct Hw0 as (Hh & Hc & He & Hp & Hf0).
  assert (Hrun : reconcileChunks (c :: rest) w
                 = setProcessedCount (List.length (c :: rest))
                     (enqueueWrite delta w0)).
  { unfold reconcileChunks. rewrite Ht. simpl negb. cbv iota. fold w0.
    unfold sameId. rewrite Hf0, Hp, Z.eqb_refl.
    assert (Hge : Nat.ltb (List.length (c :: rest)) (processedCountRef (refs w))
                  = false) by (apply Nat.ltb_ge; lia).
    rewrite Hge. simpl negb. simpl orb. cbv iota.
    unfold writeDelta. rewrite Hp.
    apply Nat.ltb_lt in Hlt. rewrite Hlt. reflexivity. }
  assert (Ht0 : terminalRef (host w0) = true) by (rewrite Hh; exact Ht).
  rewrite Hrun.
  destruct (enqueueWrite_calls delta w0 Ht0) as [Hcalls _].
  split; [simpl; rewrite enqueueWrite_noted, He; reflexivity|].
  split; [simpl; rewrite Hcalls, Hc; reflexivity | reflexivity].
Qed.

(** The instance of the specification: [a] and [b] are delivered, then the
    store grows by [c]. *)
Lemma delta_enqueued_once_witness :
  let w := reconcileChunks [mkChunk 1 "a"; mkChunk 2 "b"] mounted in
  let grown := [mkChunk 1 "a"; mkChunk 2 "b"; mkChunk 3 "c"] in
  processedCountRef (refs w) = 2%nat
  /\ enqueued (reconcileChunks grown w) = enqueued w ++ ["c"]
  /\ calls (reconcileChunks grown w) = calls w ++ [TermWrite "c"].
Proof.
  intros w grown. split; [reflexivity|].
  destruct (@delta_enqueued_once (mkChunk 1 "a") [mkChunk 2 "b"; mkChunk 3 "c"] w)
    as (He & Hc & _).
  - reflexivity.
  - right. reflexivity.
  - simpl. lia.
  - split; [exact He | exact Hc].
Defined.

(** C4: a second reconciliation of the same sequence returns the world the
    first one left, call log and write queue included: no payload is handed to
    [enqueueWrite], and the terminal sees neither a reset nor a write. *)
Theorem reconcile_idempotent (chunks : list TerminalChunk) (w : World) :
  reconcileChunks chunks (reconcileChunks chunks w) = reconcileChunks chunks w.
Proof.
  destruct (terminalRef (host w)) eqn:Ht.
  - apply settled_fixed. apply reconcile_settles. exact Ht.
  - assert (H : reconcileChunks chunks w = w).
    { unfold reconcileChunks. rewrite Ht. reflexivity. }
    rewrite H. exact H.
Qed.

End Reconciliation.

(** ** Part IV: the fit guard *)

Section FitGuard.

Import Viewport.
Local Open Scope Q_scope.

Lemma Qltb_lt (x y : Q) : Qltb x y = true <-> x < y.
Proof.
  unfold Qltb. rewrite negb_true_iff. split; intros H.
  - apply Qnot_le_lt. intros Hle. apply Qle_bool_iff in Hle. congruence.
  - destruct (Qle_bool y x) eqn:Hb; [|reflexivity].
    apply Qle_bool_iff in Hb. exfalso. apply (Qlt_not_le _ _ H). exact Hb.
Qed.

Lemma Qltb_ge (x y : Q) : Qltb x y = false <-> y <= x.
Proof.
  unfold Qltb. rewrite negb_false_iff. apply Qle_bool_iff.
Qed.

(** C7 as stated fails at the threshold itself: a 24x24 container does not
    exceed 24 pixels in either axis, and the fit goes ahead. *)
Lemma fit_at_threshold_goes_ahead :
  let w := mkWorld (mkHost true true (Some (mkRect 24 24)) (Some (80%Z, 24%Z)) true)
                   (mkRefs [] false 0 None) [] 0 [] [] in
  ~ (24 < 24 /\ 24 < 24)
  /\ calls (fitTerminal w) = [FitAddonFit; OnResize 80 24].
Proof.
  simpl. split; [|reflexivity].
  intros [H _]. revert H. apply Qlt_irrefl.
Qed.

(** C7, amended: with the refs populated, [fitTerminal] does nothing at all
    when a dimension of the container is below 24 pixels, and calls the fit
    addon (and then the resize handler) when both are at least 24 pixels. *)
Theorem fit_guard (w : World) (rect : Rect) :
  fitAddonRef (host w) = true ->
  terminalRef (host w) = true ->
  containerRef (host w) = Some rect ->
  (width rect < 24 \/ height rect < 24 -> fitTerminal w = w)
  /\ (24 <= width rect -> 24 <= height rect ->
      calls (fitTerminal w) = calls w ++ fitCalls (host w)).
Proof.
  intros Hf Ht Hc. unfold fitTerminal, fitCalls. rewrite Hf, Ht, Hc. simpl.
  split.
  - intros [H | H]; apply Qltb_lt in H; rewrite H; simpl;
      [reflexivity | rewrite orb_true_r; reflexivity].
  - intros Hw Hh. apply Qltb_ge in Hw. apply Qltb_ge in Hh.
    rewrite Hw, Hh. simpl.
    destruct (fitGrid (host w)) as [[cols rows]|]; simpl.
    + rewrite <- app_assoc. reflexivity.
    + reflexivity.
Qed.

(** The two containers of the specification: 20x20 is skipped, 30x30 is
    fitted. *)
Lemma fit_guard_witness :
  fitTerminal (boxed 20 20) = boxed 20 20
  /\ calls (fitTerminal (boxed 30 30)) = [FitAddonFit; OnResize 80 24].
Proof.
  split.
  - apply (proj1 (@fit_guard (boxed 20 20) (mkRect 20 20) eq_refl eq_refl eq_refl)).
    left. reflexivity.
  - apply (proj2 (@fit_guard (boxed 30 30) (mkRect 30 30) eq_refl eq_refl eq_refl));
      discriminate.
Defined.

End FitGuard.

(** ** Part V: the kinetic scroll engine *)

Section Tracking.

Import Kinetic.
Local Open Scope Q_scope.

(** C8: a move sample less than one pixel away from the stored position
    leaves the viewport (its scroll offset included) and the velocity as they
    were, on the pointer path and on the touch path. *)
Theorem jitter_floor (e : Engine) (previousY y now : Q) :
  lastY e = Some previousY ->
  Qabs (previousY - y) < 1 ->
  (forall event, clientY event = y ->
     viewport (handlePointerMove event now e) = viewport e
     /\ velocity (handlePointerMove event now e) = velocity e)
  /\ viewport (handleTouchMove [y] now e) = viewport e
  /\ velocity (handleTouchMove [y] now e) = velocity e.
Proof.
  intros Hy Hd. apply Qltb_lt in Hd. split.
  - intros event Hev. unfold handlePointerMove.
    destruct (negb (isTouch (pointerType event))
              || negb (samePointer (pointerId e) (eventPointerId event)));
      [split; reflexivity|].
    rewrite Hy, Hev, Hd. split; reflexivity.
  - unfold handleTouchMove. rewrite Hy, Hd. split; reflexivity.
Qed.

Lemma jitter_floor_witness :
  Qabs (100 - 99.6) < 1
  /\ scrollTop (viewport (handlePointerMove (mkPointerEvent touch 7 99.6) 12 dragging)) = 50
  /\ velocity (handlePointerMove (mkPointerEvent touch 7 99.6) 12 dragging) = 1.5
  /\ scrollTop (viewport (handleTouchMove [99.6] 12 dragging)) = 50
  /\ velocity (handleTouchMove [99.6] 12 dragging) = 1.5.
Proof.
  assert (Hd : Qabs (100 - 99.6) < 1) by reflexivity.
  destruct (@jitter_floor dragging 100 99.6 12 eq_refl Hd) as (Hp & Hv & Hw).
  destruct (Hp (mkPointerEvent touch 7 99.6) eq_refl) as (Hpv & Hpw).
  split; [exact Hd|].
  split; [rewrite Hpv; reflexivity|].
  split; [rewrite Hpw; reflexivity|].
  split; [rewrite Hv; reflexivity | rewrite Hw; reflexivity].
Defined.

(** C9: the ignored sample becomes the reference all the same.  After it the
    stored position and timestamp are those of the ignored sample, and a
    following sample that passes the floor is tracked with [deltaY] and the
    elapsed time taken from the ignored one. *)
Theorem ignored_sample_is_next_reference (e : Engine) (y0 y1 t1 : Q) :
  lastY e = Some y0 ->
  Qabs (y0 - y1) < 1 ->
  (forall pid, pointerId e = Some pid ->
     let e1 := handlePointerMove (mkPointerEvent touch pid y1) t1 e in
     lastY e1 = Some y1 /\ lastTime e1 = Some t1
     /\ forall y2 t2, 1 <= Qabs (y1 - y2) ->
          handlePointerMove (mkPointerEvent touch pid y2) t2 e1
          = trackSample (y1 - y2) (t2 - t1) (setLast (Some y2) (Some t2) e))
  /\ (let e1 := handleTouchMove [y1] t1 e in
      lastY e1 = Some y1 /\ lastTime e1 = Some t1
      /\ forall y2 t2, 1 <= Qabs (y1 - y2) ->
           handleTouchMove [y2] t2 e1
           = trackSample (y1 - y2) (t2 - t1) (setLast (Some y2) (Some t2) e)).
Proof.
  intros Hy Hd. apply Qltb_lt in Hd. split.
  - intros pid Hpid.
    assert (H1 : handlePointerMove (mkPointerEvent touch pid y1) t1 e
                 = setLast (Some y1) (Some t1) e).
    { unfold handlePointerMove.
      cbn [pointerType eventPointerId clientY isTouch negb orb].
      rewrite Hpid. cbn [samePointer]. rewrite Z.eqb_refl. cbn [negb].
      rewrite Hy, Hd. reflexivity. }
    cbv zeta. rewrite H1. split; [reflexivity|]. split; [reflexivity|].
    intros y2 t2 Hfar. apply Qltb_ge in Hfar.
    unfold handlePointerMove.
    cbn [pointerType eventPointerId clientY isTouch negb orb setLast pointerId lastY lastTime].
    rewrite Hpid. cbn [samePointer]. rewrite Z.eqb_refl. cbn [negb].
    rewrite Hfar. reflexivity.
  - assert (H1 : handleTouchMove [y1] t1 e = setLast (Some y1) (Some t1) e).
    { unfold handleTouchMove. rewrite Hy, Hd. reflexivity. }
    cbv zeta. rewrite H1. split; [reflexivity|]. split; [reflexivity|].
    intros y2 t2 Hfar. apply Qltb_ge in Hfar.
    unfold handleTouchMove. cbn [setLast lastY lastTime].
    rewrite Hfar. reflexivity.
Qed.

(** From the drag at y = 100, t = 0: a sample at 99.6 (t = 12) is ignored,
    and the one at 97 (t = 30) is measured from 99.6 and t = 12. *)
Lemma ignored_sample_is_next_reference_witness :
  Qabs (100 - 99.6) < 1
  /\ lastY (handlePointerMove (mkPointerEvent touch 7 99.6) 12 dragging) = Some 99.6
  /\ handlePointerMove (mkPointerEvent touch 7 97) 30
       (handlePointerMove (mkPointerEvent touch 7 99.6) 12 dragging)
     = trackSample (99.6 - 97) (30 - 12) (setLast (Some 97) (Some 30) dragging)
  /\ handleTouchMove [97] 30 (handleTouchMove [99.6] 12 dragging)
     = trackSample (99.6 - 97) (30 - 12) (setLast (Some 97) (Some 30) dragging).
Proof.
  assert (Hd : Qabs (100 - 99.6) < 1) by reflexivity.
  assert (Hfar : 1 <= Qabs (99.6 - 97)) by discriminate.
  destruct (@ignored_sample_is_next_reference dragging 100 99.6 12 eq_refl Hd)
    as (Hp & Ht).
  destruct (Hp 7%Z eq_refl) as (Hly & _ & Hnext).
  destruct Ht as (_ & _ & Htnext).
  split; [exact Hd|]. split; [exact Hly|].
  split; [apply Hnext; exact Hfar | apply Htnext; exact Hfar].
Defined.

End Tracking.

Section Clamping.

Import Kinetic.
Local Open Scope Q_scope.

Lemma setScrollTop_inRange (next : Q) (v : Element) :
  clientHeight v <= scrollHeight v -> inRange (setScrollTop next v).
Proof.
  intros Hgeo. unfold inRange, setScrollTop, getMaxScrollTop. simpl.
  split; [apply Q.le_max_l|].
  apply Q.max_lub; [lra|].
  eapply Qle_trans; [apply Q.le_min_l|].
  apply Q.max_lub; lra.
Qed.

Lemma scrollByPixels_viewport (deltaPixels : Q) (v : Element) :
  fst (scrollByPixels deltaPixels v) = v
  \/ fst (scrollByPixels deltaPixels v) = setScrollTop (scrollTop v + deltaPixels) v.
Proof.
  unfold scrollByPixels. destruct (Qeq_bool deltaPixels 0); [left | right]; reflexivity.
Qed.

Lemma trackSample_viewport (deltaY elapsed : Q) (e : Engine) :
  throughSetScrollTop (viewport e) (viewport (trackSample deltaY elapsed e)).
Proof.
  unfold trackSample, throughSetScrollTop. cbn [viewport setViewport setVelocity].
  destruct (scrollByPixels_viewport (deltaY * scrollMultiplier deltaY) (viewport e))
    as [H | H]; rewrite H; [left; reflexivity | right; eexists; reflexivity].
Qed.

Lemma stopKinetic_viewport (e : Engine) : viewport (stopKinetic e) = viewport e.
Proof. unfold stopKinetic. destruct (rafId e); reflexivity. Qed.

Lemma step_viewport (frameTime lastFrame : Q) (e : Engine) :
  throughSetScrollTop (viewport e) (viewport (step frameTime lastFrame e)).
Proof.
  unfold step, throughSetScrollTop.
  set (dt := Qmax (frameTime - lastFrame) 8).
  destruct (scrollByPixels_viewport (velocity e * dt) (viewport e)) as [H | H];
    destruct (scrollByPixels (velocity e * dt) (viewport e)) as [v' result];
    simpl in H; subst v';
    match goal with |- context [if ?b then _ else _] => destruct b end;
    cbn [viewport setVelocity requestAnimationFrame setViewport];
    rewrite ?stopKinetic_viewport; cbn [viewport setVelocity setViewport];
    first [left; reflexivity | right; eexists; reflexivity].
Qed.

Lemma release_viewport (now : Q) (e : Engine) :
  viewport (release now e) = viewport e.
Proof.
  unfold release. destruct (Qltb (Qabs (velocity e)) minVelocity); reflexivity.
Qed.

Lemma react_viewport (e : Engine) (i : Input) :
  throughSetScrollTop (viewport e) (viewport (react e i)).
Proof.
  destruct i as [ev now | ev now | ev now | ts now | ts now | now | now];
    cbn [react].
  - left. unfold handlePointerDown.
    destruct (negb (isTouch (pointerType ev))); [reflexivity|].
    cbn [viewport setVelocity setLast setPointerId].
    rewrite stopKinetic_viewport. reflexivity.
  - unfold handlePointerMove.
    destruct (negb (isTouch (pointerType ev))
              || negb (samePointer (pointerId e) (eventPointerId ev)));
      [left; reflexivity|].
    destruct (lastY e) as [previousY|]; [|left; reflexivity].
    destruct (Qltb (Qabs (previousY - clientY ev)) 1); [left; reflexivity|].
    apply (trackSample_viewport _ _ (setLast (Some (clientY ev)) (Some now) e)).
  - left. unfold handlePointerUp.
    destruct (negb (isTouch (pointerType ev))
              || negb (samePointer (pointerId e) (eventPointerId ev)));
      [reflexivity|].
    rewrite release_viewport. reflexivity.
  - left. unfold handleTouchStart.
    destruct ts as [|y [|y' ts]]; try reflexivity.
    cbn [viewport setVelocity setLast]. rewrite stopKinetic_viewport. reflexivity.
  - unfold handleTouchMove.
    destruct ts as [|y [|y' ts]];
      try (left; rewrite stopKinetic_viewport; reflexivity).
    destruct (lastY e) as [previousY|]; [|left; reflexivity].
    destruct (Qltb (Qabs (previousY - y)) 1); [left; reflexivity|].
    apply (trackSample_viewport _ _ (setLast (Some y) (Some now) e)).
  - left. unfold handleTouchEnd. rewrite release_viewport. reflexivity.
  - unfold animationFrame. destruct (pending e) as [|[h lastFrame] rest];
      [left; reflexivity|].
    apply (step_viewport now lastFrame
             (mkEngine (lastY e) (lastTime e) (velocity e) (rafId e) (pointerId e)
                       (viewport e) rest (nextHandle e))).
Qed.

Lemma throughSetScrollTop_inRange (v v' : Element) :
  throughSetScrollTop v v' ->
  clientHeight v <= scrollHeight v -> inRange v ->
  inRange v' /\ clientHeight v' <= scrollHeight v'.
Proof.
  intros [H | [next H]] Hgeo Hin; subst v'.
  - split; assumption.
  - split; [apply setScrollTop_inRange; exact Hgeo | exact Hgeo].
Qed.

(** C5: over a viewport whose content is at least as tall as its box, a
    single [setScrollTop] lands in [[0, scrollHeight - clientHeight]] whatever
    offset it is asked for, and from an offset in that interval every sequence
    of inputs (presses, move samples, releases and animation frames, on either
    path) leaves the offset in it. *)
Theorem scroll_offset_clamped (e : Engine) :
  clientHeight (viewport e) <= scrollHeight (viewport e) ->
  (forall next, inRange (setScrollTop next (viewport e)))
  /\ (inRange (viewport e) ->
      forall inputs, inRange (viewport (fold_left react inputs e))).
Proof.
  intros Hgeo. split.
  - intros next. apply setScrollTop_inRange. exact Hgeo.
  - intros Hin inputs. revert e Hgeo Hin.
    induction inputs as [|i inputs IH]; intros e Hgeo Hin; [exact Hin|].
    cbn [fold_left].
    destruct (throughSetScrollTop_inRange (react_viewport e i) Hgeo Hin)
      as [Hin' Hgeo'].
    apply IH; assumption.
Qed.

(** A drag of 40 pixels upwards, a drag far past the end, a release and two
    frames, from offset 50 in [[0, 900]]. *)
Lemma scroll_offset_clamped_witness :
  let inputs := [PointerMove (mkPointerEvent touch 7 140) 10;
                 PointerMove (mkPointerEvent touch 7 (-2000)) 20;
                 PointerUp (mkPointerEvent touch 7 (-2000)) 30;
                 AnimationFrame 46; AnimationFrame 62] in
  clientHeight (viewport dragging) <= scrollHeight (viewport dragging)
  /\ inRange (viewport dragging)
  /\ inRange (setScrollTop 5000 (viewport dragging))
  /\ inRange (viewport (fold_left react inputs dragging))
  /\ scrollTop (viewport (fold_left react inputs dragging)) == 900.
Proof.
  intro inputs.
  assert (Hgeo : clientHeight (viewport dragging) <= scrollHeight (viewport dragging))
    by discriminate.
  assert (Hin : inRange (viewport dragging)) by (split; discriminate).
  destruct (@scroll_offset_clamped dragging Hgeo) as [Hone Hseq].
  split; [exact Hgeo|]. split; [exact Hin|].
  split; [apply Hone|]. split; [apply Hseq; exact Hin | reflexivity].
Defined.

End Clamping.

Section Inertia.

Import Kinetic.
Local Open Scope Q_scope.

Lemma sign_abs (v : Q) : ~ v == 0 -> Qabs (sign v) == 1.
Proof.
  destruct v as [[|p|p] d]; unfold sign; simpl; intros H.
  - exfalso. apply H. reflexivity.
  - reflexivity.
  - reflexivity.
Qed.

Lemma Qabs_zero (v : Q) : v == 0 -> Qabs v == 0.
Proof. intros H. rewrite H. reflexivity. Qed.

Lemma stopKinetic_idle (e : Engine) :
  pending e = [] ->
  pending (stopKinetic e) = [] /\ rafId (stopKinetic e) = None
  /\ velocity (stopKinetic e) = velocity e.
Proof.
  intros Hp. unfold stopKinetic.
  destruct (rafId e); simpl; rewrite ?Hp; repeat split; reflexivity.
Qed.

(** One frame of the animation, run with no other callback pending: it
    stops when the scroll offset did not move or the decayed magnitude is at
    most [minVelocity], and otherwise schedules the next frame with the
    velocity decayed by [deceleration * dt], sign kept. *)
Lemma step_outcome (frameTime lastFrame : Q) (e : Engine) :
  pending e = [] ->
  let dt := Qmax (frameTime - lastFrame) 8 in
  let nextMagnitude := Qmax 0 (Qabs (velocity e) - deceleration * dt) in
  let e' := step frameTime lastFrame e in
  if negb (moves (velocity e * dt) (viewport e)) || Qle_bool nextMagnitude minVelocity
  then stopped e'
  else pending e' = [(nextHandle e, frameTime)]
       /\ velocity e' = nextMagnitude * sign (velocity e).
Proof.
  intros Hp dt nextMagnitude e'. unfold e', step, moves. fold dt. fold nextMagnitude.
  destruct (scrollByPixels (velocity e * dt) (viewport e)) as [v' result].
  cbn [snd].
  destruct (negb match result with Some b => b | None => false end
            || Qle_bool nextMagnitude minVelocity).
  - unfold stopped.
    destruct (stopKinetic_idle
                (setVelocity (nextMagnitude * sign (velocity e)) (setViewport v' e)) Hp)
      as (H1 & H2 & _).
    cbn [pending rafId velocity setVelocity]. repeat split; assumption.
  - cbn [pending velocity requestAnimationFrame setVelocity setViewport nextHandle].
    rewrite Hp. split; reflexivity.
Qed.

Lemma runFrames_idle (times : list Q) (e : Engine) :
  pending e = [] -> runFrames times e = (O, e).
Proof. intros Hp. destruct times; simpl; [|rewrite Hp]; reflexivity. Qed.

Lemma inject_succ (n : nat) :
  inject_Z (Z.of_nat (S n)) == inject_Z (Z.of_nat n) + 1.
Proof. rewrite Nat2Z.inj_succ. unfold Z.succ. rewrite inject_Z_plus. reflexivity. Qed.

(** The loop, entered with a single callback pending and a velocity that is
    not zero: [n] frames cost at least [(n - 1) * deceleration * d] of
    magnitude, and a run that leaves frames unused has stopped. *)
Lemma runFrames_bounded (d : Q) (times : list Q) :
  0 < d ->
  forall (lastFrame : Q) (h : nat) (e : Engine),
    pending e = [(h, lastFrame)] ->
    0 < Qabs (velocity e) ->
    Forall (fun dt => d <= dt) (frameIntervals lastFrame times) ->
    inject_Z (Z.of_nat (fst (runFrames times e))) * (deceleration * d)
      < Qabs (velocity e) + deceleration * d
    /\ ((fst (runFrames times e) < List.length times)%nat ->
        stopped (snd (runFrames times e))).
Proof.
  intros Hd. unfold deceleration.
  induction times as [|t rest IH]; intros lastFrame h e Hp Hv Hall.
  - cbn [runFrames fst List.length]. change (inject_Z (Z.of_nat 0)) with 0.
    split; [lra | lia].
  - cbn [runFrames]. rewrite Hp. unfold animationFrame. rewrite Hp.
    set (e1 := mkEngine (lastY e) (lastTime e) (velocity e) (rafId e)
                        (pointerId e) (viewport e) [] (nextHandle e)).
    cbn [frameIntervals] in Hall. inversion Hall as [|dt0 rest0 Hdt Hrest]; subst.
    pose proof (@step_outcome t lastFrame e1 eq_refl) as Hstep.
    cbv zeta in Hstep. cbn [velocity viewport nextHandle e1] in Hstep.
    fold e1 in Hstep.
    set (dt := Qmax (t - lastFrame) 8) in *.
    set (m := Qmax 0 (Qabs (velocity e) - deceleration * dt)) in *.
    destruct (negb (moves (velocity e * dt) (viewport e)) || Qle_bool m minVelocity)
      eqn:Hstop.
    + rewrite (@runFrames_idle rest _ (proj1 Hstep)). cbn [fst snd].
      split; [|intros _; exact Hstep].
      change (inject_Z (Z.of_nat 1)) with 1. lra.
    + destruct Hstep as [Hp1 Hv1].
      apply orb_false_elim in Hstop. destruct Hstop as [_ Hm].
      assert (Hm' : minVelocity < m).
      { apply Qnot_le_lt. intros Hle. apply Qle_bool_iff in Hle. congruence. }
      unfold minVelocity in Hm'.
      assert (Hmeq : m == Qabs (velocity e) - deceleration * dt).
      { unfold m.
        destruct (Q.max_spec 0 (Qabs (velocity e) - deceleration * dt))
          as [[_ H] | [_ H]]; [exact H|].
        exfalso. fold m in H. lra. }
      unfold deceleration in Hmeq.
      assert (Hnz : ~ velocity e == 0).
      { intros H0. apply Qabs_zero in H0. lra. }
      assert (Habs : Qabs (velocity (step t lastFrame e1)) == m).
      { rewrite Hv1, Qabs_Qmult, (sign_abs Hnz).
        rewrite Qabs_pos; [ring | lra]. }
      destruct (IH t (nextHandle e) (step t lastFrame e1) Hp1) as [Hn Hs];
        [lra | exact Hrest |].
      destruct (runFrames rest (step t lastFrame e1)) as [n e'] eqn:Hrun.
      cbn [fst snd] in *. split.
      * rewrite inject_succ. rewrite Habs in Hn.
        assert (Hle : 0.015 * d <= 0.015 * dt) by lra.
        lra.
      * intros Hlt. apply Hs. simpl in Hlt. lia.
Qed.

Lemma frameIntervals_floor (lastFrame : Q) (times : list Q) :
  Forall (fun dt => 8 <= dt) (frameIntervals lastFrame times).
Proof.
  revert lastFrame. induction times as [|t rest IH]; intros lastFrame; simpl.
  - constructor.
  - constructor; [apply Q.le_max_r | apply IH].
Qed.

Lemma releasedFrom_release (e e0 : Engine) (now : Q) :
  releasedFrom e now e0 ->
  exists e1, e0 = release now e1 /\ velocity e1 = velocity e
             /\ pending e1 = pending e.
Proof.
  intros [H | (event & Ht & Hs & H)]; subst e0.
  - exists (setLast None None e). repeat split; reflexivity.
  - exists (setLast None None (setPointerId None e)).
    unfold handlePointerUp. rewrite Ht, Hs. repeat split; reflexivity.
Qed.

(** C6 as stated fails by one frame.  A release at 0.3 px/ms with frames
    every 16 ms runs [step] twice, and [0.3 / (0.015 * 16) = 1.25]; a release
    at the velocity cap of 8 px/ms runs it 34 times, and
    [8 / (0.015 * 16) < 34]. *)
Lemma inertia_exceeds_stated_bound :
  let up := handlePointerUp (mkPointerEvent touch 7 97) 0 in
  Forall (fun dt => 16 <= dt) (frameIntervals 0 (every16 40))
  /\ fst (runFrames (every16 40) (up (flicked 0.3))) = 2%nat
  /\ ~ inject_Z 2 <= 0.3 / (deceleration * 16)
  /\ fst (runFrames (every16 40) (up (flicked 8))) = 34%nat
  /\ ~ inject_Z 34 <= 8 / (deceleration * 16).
Proof.
  cbv zeta. split.
  - apply Forall_forall. intros dt Hin. vm_compute in Hin.
    repeat (destruct Hin as [Hin | Hin]; [subst dt; discriminate|]).
    contradiction.
  - split; [vm_compute; reflexivity|].
    split; [intros H; vm_compute in H; apply H; reflexivity|].
    split; [vm_compute; reflexivity|].
    intros H; vm_compute in H; apply H; reflexivity.
Qed.

(** C6, amended.  A release slower than [minVelocity] schedules no frame.
    Otherwise, if every frame's [dt] (floored at 8 ms) is at least [d], [step]
    runs fewer than [|V| / (deceleration * d) + 1] times, and once that many
    frames have been delivered the animation has stopped; with the floor alone
    ([d = 8]) this bounds every run.  Each frame stops the animation when the
    offset did not move or the decayed magnitude is at most [minVelocity], and
    otherwise continues with the magnitude less [deceleration * dt], sign
    kept. *)
Theorem inertia_terminates (e e0 : Engine) (now : Q) :
  pending e = [] ->
  releasedFrom e now e0 ->
  (Qabs (velocity e) < minVelocity -> pending e0 = [] /\ velocity e0 = 0)
  /\ (minVelocity <= Qabs (velocity e) ->
      (forall times d,
         0 < d ->
         Forall (fun dt => d <= dt) (frameIntervals now times) ->
         inject_Z (Z.of_nat (fst (runFrames times e0)))
           < Qabs (velocity e) / (deceleration * d) + 1
         /\ (Qabs (velocity e) / (deceleration * d) + 1
               <= inject_Z (Z.of_nat (List.length times)) ->
             stopped (snd (runFrames times e0))))
      /\ (forall times,
            inject_Z (Z.of_nat (fst (runFrames times e0)))
              < Qabs (velocity e) / (deceleration * 8) + 1))
  /\ (forall frameTime lastFrame running,
        pending running = [] ->
        let dt := Qmax (frameTime - lastFrame) 8 in
        let nextMagnitude := Qmax 0 (Qabs (velocity running) - deceleration * dt) in
        if negb (moves (velocity running * dt) (viewport running))
           || Qle_bool nextMagnitude minVelocity
        then stopped (step frameTime lastFrame running)
        else pending (step frameTime lastFrame running)
               = [(nextHandle running, frameTime)]
             /\ velocity (step frameTime lastFrame running)
                = nextMagnitude * sign (velocity running)).
Proof.
  intros Hp Hrel.
  destruct (releasedFrom_release Hrel) as (e1 & He0 & Hv1 & Hp1).
  rewrite Hp in Hp1.
  assert (Hbound : minVelocity <= Qabs (velocity e) ->
            forall times d, 0 < d ->
              Forall (fun dt => d <= dt) (frameIntervals now times) ->
              inject_Z (Z.of_nat (fst (runFrames times e0)))
                < Qabs (velocity e) / (deceleration * d) + 1
              /\ ((fst (runFrames times e0) < List.length times)%nat ->
                  stopped (snd (runFrames times e0)))).
  { intros Hfast times d Hd Hall.
    assert (Hrun : e0 = requestAnimationFrame now e1).
    { rewrite He0. unfold release.
      destruct (Qltb (Qabs (velocity e1)) minVelocity) eqn:Hslow; [|reflexivity].
      apply Qltb_lt in Hslow. rewrite Hv1 in Hslow. exfalso.
      apply (Qlt_not_le _ _ Hslow). exact Hfast. }
    assert (Hpe : pending e0 = [(nextHandle e1, now)]).
    { rewrite Hrun. cbn [pending requestAnimationFrame]. rewrite Hp1. reflexivity. }
    assert (Hve : velocity e0 = velocity e).
    { rewrite Hrun. cbn [velocity requestAnimationFrame]. exact Hv1. }
    unfold minVelocity in Hfast.
    destruct (@runFrames_bounded d times Hd now (nextHandle e1) e0 Hpe) as [Hn Hs];
      [rewrite Hve; lra | exact Hall |].
    rewrite Hve in Hn. split; [|exact Hs].
    assert (Hcd : 0 < deceleration * d) by (unfold deceleration; lra).
    assert (Hq : inject_Z (Z.of_nat (fst (runFrames times e0))) - 1
                 < Qabs (velocity e) / (deceleration * d)).
    { apply Qlt_shift_div_l; [exact Hcd|]. lra. }
    lra. }
  split; [|split; [|intros frameTime lastFrame running; apply step_outcome]].
  - intros Hslow. rewrite He0. unfold release. rewrite Hv1.
    apply Qltb_lt in Hslow. rewrite Hslow.
    cbn [pending velocity setVelocity]. split; [exact Hp1 | reflexivity].
  - intros Hfast. split.
    + intros times d Hd Hall.
      destruct (Hbound Hfast times d Hd Hall) as [Hn Hs].
      split; [exact Hn|]. intros Hlen. apply Hs.
      assert (Hlt : inject_Z (Z.of_nat (fst (runFrames times e0)))
                    < inject_Z (Z.of_nat (List.length times))) by lra.
      rewrite <- Zlt_Qlt in Hlt. lia.
    + intros times.
      assert (H8 : 0 < 8) by reflexivity.
      exact (proj1 (Hbound Hfast times 8 H8 (frameIntervals_floor now times))).
Qed.

(** The release at 0.3 px/ms with frames every 16 ms: two frames, fewer than
    [0.3 / (0.015 * 16) + 1 = 2.25], and the engine is at rest after them. *)
Lemma inertia_terminates_witness :
  let e0 := handlePointerUp (mkPointerEvent touch 7 97) 0 (flicked 0.3) in
  pending (flicked 0.3) = []
  /\ minVelocity <= Qabs (velocity (flicked 0.3))
  /\ Forall (fun dt => 16 <= dt) (frameIntervals 0 (every16 3))
  /\ inject_Z (Z.of_nat (fst (runFrames (every16 3) e0))) < 0.3 / (deceleration * 16) + 1
  /\ stopped (snd (runFrames (every16 3) e0)).
Proof.
  intro e0.
  assert (Hrel : releasedFrom (flicked 0.3) 0 e0).
  { right. exists (mkPointerEvent touch 7 97). repeat split; reflexivity. }
  assert (Hfast : minVelocity <= Qabs (velocity (flicked 0.3))) by discriminate.
  assert (Hall : Forall (fun dt => 16 <= dt) (frameIntervals 0 (every16 3))).
  { repeat constructor; discriminate. }
  assert (H16 : 0 < 16) by reflexivity.
  destruct (@inertia_terminates (flicked 0.3) e0 0 eq_refl Hrel) as (_ & Hrun & _).
  destruct (Hrun Hfast) as (Hb & _).
  destruct (Hb (every16 3) 16 H16 Hall) as (Hn & Hs).
  split; [reflexivity|]. split; [exact Hfast|]. split; [exact Hall|].
  split; [exact Hn|]. apply Hs. discriminate.
Defined.

End Inertia.

(** ** Part VI: the viewport over sequences of events *)

Section Events.

Import Viewport Lifecycle.
Local Open Scope string_scope.
Local Open Scope list_scope.

Lemma clear_host (w : World) : host (clear w) = host w.
Proof.
  unfold clear. destruct (negb (terminalRef (host w))); [reflexivity|].
  rewrite fitTerminal_host. reflexivity.
Qed.

Lemma consumeNext_host (w : World) : host (consumeNext w) = host w.
Proof.
  unfold consumeNext. destruct (negb (terminalRef (host w))); [reflexivity|].
  destruct (writeQueueRef (refs w)); reflexivity.
Qed.

Lemma handle_host (w : World) (ev : Event) : host (handle w ev) = host w.
Proof.
  destruct ev; cbn [handle].
  - apply reconcile_host.
  - apply enqueueWrite_host.
  - unfold writeDone. destruct (inFlight w); [reflexivity|].
    cbn [refs setIsWriting withRefs writeQueueRef host].
    destruct (writeQueueRef (refs w)); [reflexivity|].
    destruct (hasWindow (host w)); [reflexivity|].
    rewrite consumeNext_host. reflexivity.
  - unfold timerFires. destruct (timers w); [reflexivity|].
    rewrite consumeNext_host. reflexivity.
  - apply clear_host.
  - apply fitTerminal_host.
Qed.

(** Without a terminal no single event adds a call. *)
Lemma handle_unmounted (w : World) (ev : Event) :
  terminalRef (host w) = false -> calls (handle w ev) = calls w.
Proof.
  intros Ht. destruct ev; cbn [handle].
  - unfold reconcileChunks. rewrite Ht. reflexivity.
  - unfold enqueueWrite, flushWriteQueue, consumeNext.
    destruct (isEmpty payload); [reflexivity|].
    cbn [refs setIsWriting setWriteQueue withRefs noteEnqueue isWritingRef host].
    rewrite Ht. reflexivity.
  - unfold writeDone. destruct (inFlight w); [reflexivity|].
    cbn [refs setIsWriting withRefs writeQueueRef host].
    destruct (writeQueueRef (refs w)); [reflexivity|].
    destruct (hasWindow (host w)); [reflexivity|].
    unfold consumeNext. cbn [host setIsWriting withRefs]. rewrite Ht. reflexivity.
  - unfold timerFires. destruct (timers w); [reflexivity|].
    unfold consumeNext. cbn [host]. rewrite Ht. reflexivity.
  - unfold clear. rewrite Ht. reflexivity.
  - unfold fitTerminal. rewrite Ht, orb_true_r. reflexivity.
Qed.

(** X1: once the terminal ref is empty, no sequence of events reaches the
    rendering surface: chunk updates, enqueues, late completion callbacks,
    late timers, [clear] and [fit] leave the call log as it was. *)
Theorem no_call_without_terminal (w : World) (events : list Event) :
  terminalRef (host w) = false ->
  calls (fold_left handle events w) = calls w.
Proof.
  revert w. induction events as [|ev events IH]; intros w Ht; [reflexivity|].
  cbn [fold_left]. rewrite IH.
  - apply handle_unmounted. exact Ht.
  - rewrite handle_host. exact Ht.
Qed.

Lemma no_call_without_terminal_witness :
  terminalRef (host orphaned) = false
  /\ calls (fold_left handle
              [WriteCompleted; TimerFired; Enqueued "x";
               ChunksChanged [mkChunk 1 "a"]; ClearCalled; FitCalled] orphaned)
     = [TermWrite "sent"].
Proof.
  split; [reflexivity|].
  apply (@no_call_without_terminal orphaned
           [WriteCompleted; TimerFired; Enqueued "x";
            ChunksChanged [mkChunk 1 "a"]; ClearCalled; FitCalled] eq_refl).
Defined.

Lemma writesOf_app (a b : list Call) : writesOf (a ++ b) = writesOf a ++ writesOf b.
Proof. unfold writesOf. apply flat_map_app. Qed.

Lemma writesOf_written (payload : string) :
  writesOf (written payload) = filter nonEmpty [payload].
Proof.
  unfold written, nonEmpty. cbn [filter].
  destruct (isEmpty payload); reflexivity.
Qed.

Lemma writeThrough_withRefs (r : Refs) (w : World) :
  writeThrough w -> writeQueueRef r = [] -> writeThrough (withRefs r w).
Proof.
  intros (_ & Ht & Hw) Hq. repeat split; assumption.
Qed.

Lemma writeThrough_call (c : Call) (w : World) :
  writeThrough w -> writesOf [c] = [] -> writeThrough (call c w).
Proof.
  intros (Hq & Ht & Hw) Hc. repeat split; try assumption.
  cbn [calls call]. rewrite writesOf_app, Hc, app_nil_r. exact Hw.
Qed.

(** What [fitTerminal] does, by whether a fit is possible. *)
Lemma fitTerminal_cases (w : World) :
  (fitPossible (host w)
   /\ fitTerminal w = match fitGrid (host w) with
                      | None => call FitAddonFit w
                      | Some (cols, rows) =>
                          call (OnResize cols rows) (call FitAddonFit w)
                      end)
  \/ (~ fitPossible (host w) /\ fitTerminal w = w).
Proof.
  unfold fitTerminal, fitPossible.
  destruct (fitAddonRef (host w)); cbn [negb orb];
    [|right; split; [intros (H & _); discriminate | reflexivity]].
  destruct (terminalRef (host w)); cbn [negb];
    [|right; split; [intros (_ & H & _); discriminate | reflexivity]].
  destruct (containerRef (host w)) as [rect|];
    [|right; split; [intros (_ & _ & r & H & _); discriminate | reflexivity]].
  destruct (Qltb (width rect) 24) eqn:Hw; cbn [orb].
  { right. split; [|reflexivity]. intros (_ & _ & r & Hr & Hwide & _).
    inversion Hr; subst r. apply Qltb_lt in Hw.
    apply (Qlt_not_le _ _ Hw). exact Hwide. }
  destruct (Qltb (height rect) 24) eqn:Hh.
  { right. split; [|reflexivity]. intros (_ & _ & r & Hr & _ & Hhigh).
    inversion Hr; subst r. apply Qltb_lt in Hh.
    apply (Qlt_not_le _ _ Hh). exact Hhigh. }
  left. apply Qltb_ge in Hw. apply Qltb_ge in Hh.
  split; [|reflexivity].
  repeat split; try reflexivity. exists rect. repeat split; assumption.
Qed.

Lemma writeThrough_fit (w : World) : writeThrough w -> writeThrough (fitTerminal w).
Proof.
  intros H. destruct (fitTerminal_cases w) as [[_ Hf] | [_ Hf]]; rewrite Hf;
    [|exact H].
  destruct (fitGrid (host w)) as [[cols rows]|];
    repeat apply writeThrough_call; try exact H; reflexivity.
Qed.

Lemma enqueueWrite_timers (payload : string) (w : World) :
  timers (enqueueWrite payload w) = timers w.
Proof.
  unfold enqueueWrite, flushWriteQueue, consumeNext.
  destruct (isEmpty payload); [reflexivity|].
  cbn [refs setIsWriting setWriteQueue withRefs noteEnqueue isWritingRef host].
  destruct (negb (terminalRef (host w))); reflexivity.
Qed.

Lemma writeThrough_enqueue (payload : string) (w : World) :
  terminalRef (host w) = true -> writeThrough w ->
  writeThrough (enqueueWrite payload w).
Proof.
  intros Hm (Hq & Ht & Hw).
  destruct (enqueueWrite_calls payload w Hm) as [Hc Hq'].
  repeat split.
  - rewrite Hq'. destruct (isEmpty payload); [exact Hq | reflexivity].
  - rewrite enqueueWrite_timers. exact Ht.
  - rewrite Hc, enqueueWrite_noted, writesOf_app, filter_app, Hw, writesOf_written.
    reflexivity.
Qed.

Lemma writeThrough_cleared (w : World) :
  writeThrough w -> writeThrough (fitTerminal (resetWriteState (call TermReset w))).
Proof.
  intros H. apply writeThrough_fit. unfold resetWriteState.
  apply writeThrough_withRefs; [|reflexivity].
  apply writeThrough_call; [exact H | reflexivity].
Qed.

Lemma writeThrough_reconcile (chunks : list TerminalChunk) (w : World) :
  terminalRef (host w) = true -> writeThrough w ->
  writeThrough (reconcileChunks chunks w).
Proof.
  intros Hm H. unfold reconcileChunks. rewrite Hm. cbn [negb].
  destruct chunks as [|c rest].
  - destruct (Nat.eqb (processedCountRef (refs w)) 0); [exact H|].
    apply writeThrough_cleared. exact H.
  - set (w0 := match firstChunkIdRef (refs w) with
               | None => setFirstChunkId (Some (id c)) w
               | Some _ => w
               end).
    assert (H0 : writeThrough w0 /\ terminalRef (host w0) = true).
    { unfold w0. destruct (firstChunkIdRef (refs w)); split; assumption. }
    destruct H0 as [H0 Hm0].
    set (w1 := if negb (sameId (firstChunkIdRef (refs w0)) (id c))
                  || Nat.ltb (List.length (c :: rest)) (processedCountRef (refs w0))
               then resetForNewSequence (id c) w0 else w0).
    assert (H1 : writeThrough w1 /\ terminalRef (host w1) = true).
    { unfold w1.
      destruct (negb (sameId (firstChunkIdRef (refs w0)) (id c))
                || Nat.ltb (List.length (c :: rest)) (processedCountRef (refs w0)));
        split; try assumption.
      unfold resetForNewSequence, setFirstChunkId, resetWriteState.
      repeat (apply writeThrough_withRefs; [|reflexivity]).
      apply writeThrough_call; [exact H0 | reflexivity]. }
    destruct H1 as [H1 Hm1]. unfold writeDelta.
    destruct (Nat.ltb (processedCountRef (refs w1)) (List.length (c :: rest)));
      [|exact H1].
    unfold setProcessedCount.
    pose proof (writeThrough_enqueue
                  (joinData (skipn (processedCountRef (refs w1)) (c :: rest)))
                  Hm1 H1) as He.
    apply writeThrough_withRefs; [exact He | exact (proj1 He)].
Qed.

Lemma writeThrough_handle (w : World) (ev : Event) :
  terminalRef (host w) = true -> writeThrough w -> writeThrough (handle w ev).
Proof.
  intros Hm H. destruct ev; cbn [handle].
  - apply writeThrough_reconcile; assumption.
  - apply writeThrough_enqueue; assumption.
  - destruct H as (Hq & Ht & Hw). unfold writeDone.
    destruct (inFlight w); [repeat split; assumption|].
    cbn [refs setIsWriting withRefs writeQueueRef]. rewrite Hq.
    repeat split; assumption.
  - destruct H as (Hq & Ht & Hw). unfold timerFires. rewrite Ht.
    repeat split; assumption.
  - unfold clear. rewrite Hm. apply writeThrough_cleared. exact H.
  - apply writeThrough_fit. exact H.
Qed.

(** X2: with a terminal mounted the queue is a write-through.  From a world
    with an empty queue and no timer in which the terminal was written what
    was enqueued, every sequence of events leads to such a world again: each
    non-empty payload handed to [enqueueWrite] is written exactly once, in the
    order of the calls, nothing is left in the queue after an event, and the
    zero-delay timer of the completion callback is never armed. *)
Theorem queue_is_write_through (w : World) (events : list Event) :
  terminalRef (host w) = true ->
  writeThrough w ->
  writeThrough (fold_left handle events w).
Proof.
  revert w. induction events as [|ev events IH]; intros w Hm H; [exact H|].
  cbn [fold_left]. apply IH.
  - rewrite handle_host. exact Hm.
  - apply writeThrough_handle; assumption.
Qed.

Lemma queue_is_write_through_witness :
  let events := [ChunksChanged [mkChunk 1 "a"]; ChunksChanged [mkChunk 1 "a"; mkChunk 2 ""];
                 ChunksChanged [mkChunk 1 "a"; mkChunk 2 ""; mkChunk 3 "c"];
                 WriteCompleted; ChunksChanged [mkChunk 7 "z"]; TimerFired] in
  terminalRef (host mounted) = true
  /\ writeThrough mounted
  /\ writesOf (calls (fold_left handle events mounted)) = ["a"; "c"; "z"]
  /\ timers (fold_left handle events mounted) = O.
Proof.
  intro events.
  assert (H0 : writeThrough mounted) by (repeat split; reflexivity).
  destruct (@queue_is_write_through mounted events eq_refl H0) as (_ & Ht & Hw).
  split; [reflexivity|]. split; [exact H0|].
  split; [rewrite Hw; reflexivity | exact Ht].
Defined.

Lemma fitTerminal_enqueued (w : World) : enqueued (fitTerminal w) = enqueued w.
Proof.
  destruct (fitTerminal_cases w) as [[_ Hf] | [_ Hf]]; rewrite Hf; [|reflexivity].
  destruct (fitGrid (host w)) as [[cols rows]|]; reflexivity.
Qed.

Lemma fit_cases_calls (w : World) :
  exists fitted,
    calls (fitTerminal w) = calls w ++ fitted
    /\ (fitPossible (host w) -> fitted = fitCalls (host w))
    /\ (~ fitPossible (host w) -> fitted = []).
Proof.
  destruct (fitTerminal_cases w) as [[Hp Hf] | [Hn Hf]]; rewrite Hf.
  - exists (fitCalls (host w)).
    split; [|split; [reflexivity | intros Hn; contradiction]].
    unfold fitCalls. destruct (fitGrid (host w)) as [[cols rows]|]; cbn [calls call].
    + rewrite <- app_assoc. reflexivity.
    + reflexivity.
  - exists []. rewrite app_nil_r.
    split; [reflexivity|]. split; [intros Hp; contradiction | reflexivity].
Qed.

(** X3: [fitTerminal] is best effort and touches nothing else.  When both
    refs are set and the container measures at least 24 pixels each way it
    calls the fit addon, and the resize handler if the addon did not throw;
    in every other case it does nothing.  The refs, the writes in flight, the
    timers and the record of enqueued payloads are never changed. *)
Theorem fit_is_best_effort (w : World) :
  (fitPossible (host w) -> calls (fitTerminal w) = calls w ++ fitCalls (host w))
  /\ (~ fitPossible (host w) -> fitTerminal w = w)
  /\ refs (fitTerminal w) = refs w
  /\ inFlight (fitTerminal w) = inFlight w
  /\ timers (fitTerminal w) = timers w
  /\ enqueued (fitTerminal w) = enqueued w.
Proof.
  destruct (fitTerminal_cases w) as [[Hp Hf] | [Hn Hf]]; rewrite Hf.
  - split; [|split; [intros Hn; contradiction|]].
    + intros _. unfold fitCalls.
      destruct (fitGrid (host w)) as [[cols rows]|]; cbn [calls call].
      * rewrite <- app_assoc. reflexivity.
      * reflexivity.
    + destruct (fitGrid (host w)) as [[cols rows]|]; repeat split; reflexivity.
  - split; [intros Hp; contradiction|]. repeat split; reflexivity.
Qed.

Lemma fit_is_best_effort_witness :
  fitPossible (host (boxed 24 600))
  /\ calls (fitTerminal (boxed 24 600)) = [FitAddonFit; OnResize 80 24]
  /\ ~ fitPossible (host orphaned)
  /\ fitTerminal orphaned = orphaned.
Proof.
  assert (Hp : fitPossible (host (boxed 24 600))).
  { split; [reflexivity|]. split; [reflexivity|]. exists (mkRect 24 600).
    split; [reflexivity|]. split; discriminate. }
  assert (Hn : ~ fitPossible (host orphaned)).
  { intros (H & _). discriminate. }
  destruct (@fit_is_best_effort (boxed 24 600)) as (Hyes & _).
  destruct (@fit_is_best_effort orphaned) as (_ & Hno & _).
  split; [exact Hp|]. split; [apply Hyes; exact Hp|].
  split; [exact Hn | apply Hno; exact Hn].
Defined.

Lemma concat_cons (x : string) (l : list string) :
  String.concat "" (x :: l) = (x ++ String.concat "" l)%string.
Proof.
  destruct l as [|y l]; cbn [String.concat].
  - induction x as [|a x IH]; cbn; [reflexivity | rewrite <- IH; reflexivity].
  - reflexivity.
Qed.

Lemma string_app_assoc (a b c : string) :
  ((a ++ b) ++ c = a ++ (b ++ c))%string.
Proof. induction a as [|x a IH]; cbn; [reflexivity | rewrite IH; reflexivity]. Qed.

Lemma joinData_app (p q : list TerminalChunk) :
  joinData (p ++ q) = (joinData p ++ joinData q)%string.
Proof.
  unfold joinData. induction p as [|c p IH].
  - reflexivity.
  - cbn [map app]. rewrite !concat_cons, IH, string_app_assoc. reflexivity.
Qed.

Lemma setFirstChunkId_same (i : option Z) (w : World) :
  firstChunkIdRef (refs w) = i -> setFirstChunkId i w = w.
Proof. destruct w as [h [q b n f] fl t c e]. cbn. intros ->. reflexivity. Qed.

(** A run on a non-empty sequence that finds no reason to reset. *)
Lemma no_reset_run (c : TerminalChunk) (rest : list TerminalChunk) (w : World) :
  terminalRef (host w) = true ->
  ~ replaced (id c) (List.length (c :: rest)) (refs w) ->
  reconcileChunks (c :: rest) w
  = writeDelta (c :: rest) (setFirstChunkId (Some (id c)) w).
Proof.
  intros Hm Hn. unfold reconcileChunks. rewrite Hm. cbn [negb].
  assert (Hlen : Nat.ltb (List.length (c :: rest)) (processedCountRef (refs w)) = false).
  { apply Nat.ltb_ge. destruct (Nat.le_gt_cases (processedCountRef (refs w))
                                  (List.length (c :: rest))) as [H | H];
      [exact H | exfalso; apply Hn; right; exact H]. }
  destruct (firstChunkIdRef (refs w)) as [f|] eqn:Hf.
  - assert (Hid : f = id c).
    { destruct (Z.eq_dec f (id c)) as [H | H]; [exact H|].
      exfalso. apply Hn. left. exists f. split; [exact Hf | exact H]. }
    subst f. rewrite Hf. unfold sameId. rewrite Z.eqb_refl, Hlen. cbn [negb orb].
    rewrite (@setFirstChunkId_same _ w Hf). reflexivity.
  - cbn [refs setFirstChunkId withRefs firstChunkIdRef processedCountRef sameId].
    rewrite Z.eqb_refl, Hlen. reflexivity.
Qed.

(** A run on a non-empty sequence that resets. *)
Lemma reset_run (c : TerminalChunk) (rest : list TerminalChunk) (w : World) :
  terminalRef (host w) = true ->
  replaced (id c) (List.length (c :: rest)) (refs w) ->
  reconcileChunks (c :: rest) w
  = writeDelta (c :: rest) (resetForNewSequence (id c) w).
Proof.
  intros Hm Hr. unfold reconcileChunks. rewrite Hm. cbn [negb].
  destruct (firstChunkIdRef (refs w)) as [f|] eqn:Hf.
  - rewrite Hf.
    assert (Hb : negb (sameId (Some f) (id c))
                 || Nat.ltb (List.length (c :: rest)) (processedCountRef (refs w))
                 = true).
    { destruct Hr as [(f' & Hf' & Hne) | Hlt].
      - rewrite Hf in Hf'. inversion Hf'; subst f'. apply Z.eqb_neq in Hne.
        cbn [sameId].
        rewrite Hne. reflexivity.
      - apply Nat.ltb_lt in Hlt. rewrite Hlt. apply orb_true_r. }
    rewrite Hb. reflexivity.
  - destruct Hr as [(f' & Hf' & _) | Hlt]; [rewrite Hf in Hf'; discriminate|].
    cbn [refs setFirstChunkId withRefs firstChunkIdRef processedCountRef sameId].
    apply Nat.ltb_lt in Hlt. rewrite Hlt, orb_true_r. reflexivity.
Qed.

Lemma replaced_dec (first : Z) (len : nat) (r : Refs) :
  replaced first len r \/ ~ replaced first len r.
Proof.
  unfold replaced.
  destruct (Nat.le_gt_cases (processedCountRef r) len) as [Hle | Hgt];
    [|left; right; exact Hgt].
  destruct (firstChunkIdRef r) as [f|].
  - destruct (Z.eq_dec f first) as [He | Hne].
    + right. intros [(f' & Hf' & Hne) | Hlt]; [|lia].
      inversion Hf'; subst. apply Hne. reflexivity.
    + left. left. exists f. split; [reflexivity | exact Hne].
  - right. intros [(f' & Hf' & _) | Hlt]; [discriminate | lia].
Qed.

(** What the delta block adds, with a terminal mounted. *)
Lemma writeDelta_effect (chunks : list TerminalChunk) (w : World) :
  terminalRef (host w) = true ->
  ((processedCountRef (refs w) < List.length chunks)%nat ->
   calls (writeDelta chunks w)
   = calls w ++ written (joinData (skipn (processedCountRef (refs w)) chunks))
   /\ enqueued (writeDelta chunks w)
      = enqueued w ++ [joinData (skipn (processedCountRef (refs w)) chunks)])
  /\ ((List.length chunks <= processedCountRef (refs w))%nat ->
      writeDelta chunks w = w).
Proof.
  intros Hm. unfold writeDelta. split; intros H.
  - apply Nat.ltb_lt in H. rewrite H. cbn [calls enqueued setProcessedCount withRefs].
    rewrite enqueueWrite_noted.
    destruct (enqueueWrite_calls
                (joinData (skipn (processedCountRef (refs w)) chunks)) w Hm) as [Hc _].
    rewrite Hc. split; reflexivity.
  - apply Nat.ltb_ge in H. rewrite H. reflexivity.
Qed.

Lemma written_no_reset (payload : string) : ~ In TermReset (written payload).
Proof.
  unfold written. destruct (isEmpty payload); cbn; [tauto|].
  intros [H | H]; [discriminate | exact H].
Qed.

(** X4: after a reconciliation with a terminal mounted the cursor stands at
    the length of the sequence, and for a non-empty sequence the recorded
    first id is the id of its first chunk. *)
Theorem cursor_tracks_the_store (chunks : list TerminalChunk) (w : World) :
  terminalRef (host w) = true ->
  processedCountRef (refs (reconcileChunks chunks w)) = List.length chunks
  /\ (forall c rest, chunks = c :: rest ->
        firstChunkIdRef (refs (reconcileChunks chunks w)) = Some (id c)).
Proof.
  intros Hm. pose proof (reconcile_settles chunks w Hm) as H.
  destruct chunks as [|c rest]; cbn [settled] in H.
  - split; [exact H | intros c rest Hc; discriminate].
  - destruct H as [Hf Hp]. split; [exact Hp|].
    intros c' rest' Hc. inversion Hc; subst. exact Hf.
Qed.

Lemma cursor_tracks_the_store_witness :
  let w := reconcileChunks [mkChunk 5 "x"; mkChunk 6 "y"; mkChunk 7 "z"] mounted in
  terminalRef (host w) = true
  /\ processedCountRef (refs (reconcileChunks [mkChunk 9 "n"] w)) = 1%nat
  /\ firstChunkIdRef (refs (reconcileChunks [mkChunk 9 "n"] w)) = Some 9%Z.
Proof.
  intro w.
  destruct (@cursor_tracks_the_store [mkChunk 9 "n"] w eq_refl) as [Hp Hf].
  split; [reflexivity|]. split; [exact Hp | exact (Hf _ _ eq_refl)].
Defined.

(** X5: growth is delivered piecewise.  After a non-empty sequence [p] has
    been reconciled, reconciling [p ++ q] hands exactly the data of [q] to
    [enqueueWrite] and calls no reset; the two payloads together are the data
    of the whole sequence. *)
Theorem growth_delivers_the_new_chunks (p q : list TerminalChunk) (w : World) :
  terminalRef (host w) = true ->
  p <> [] -> q <> [] ->
  let w1 := reconcileChunks p w in
  let w2 := reconcileChunks (p ++ q) w1 in
  enqueued w2 = enqueued w1 ++ [joinData q]
  /\ calls w2 = calls w1 ++ written (joinData q)
  /\ joinData (p ++ q) = (joinData p ++ joinData q)%string.
Proof.
  intros Hm Hp Hq w1 w2. destruct p as [|c rest]; [contradiction|].
  assert (Hm1 : terminalRef (host w1) = true).
  { unfold w1. rewrite reconcile_host. exact Hm. }
  destruct (reconcile_settles (c :: rest) w Hm) as [Hf Hc]. fold w1 in Hf, Hc.
  assert (Hn : ~ replaced (id c) (List.length (c :: rest ++ q)) (refs w1)).
  { intros [(f & Hf' & Hne) | Hlt].
    - rewrite Hf in Hf'. inversion Hf'; subst. apply Hne. reflexivity.
    - rewrite Hc in Hlt. cbn [List.length] in Hlt. rewrite length_app in Hlt. lia. }
  assert (Hrun : w2 = writeDelta (c :: rest ++ q) w1).
  { unfold w2. cbn [app]. rewrite (@no_reset_run c (rest ++ q) w1 Hm1 Hn).
    rewrite (@setFirstChunkId_same _ w1 Hf). reflexivity. }
  destruct (writeDelta_effect (c :: rest ++ q) w1 Hm1) as [Hgrow _].
  assert (Hlt : (processedCountRef (refs w1) < List.length (c :: rest ++ q))%nat).
  { rewrite Hc. cbn [List.length]. rewrite length_app.
    destruct q; [contradiction | cbn [List.length]; lia]. }
  destruct (Hgrow Hlt) as [Hcalls Henq].
  assert (Hskip : skipn (processedCountRef (refs w1)) (c :: rest ++ q) = q).
  { rewrite Hc. change (c :: rest ++ q) with ((c :: rest) ++ q).
    rewrite skipn_app, skipn_all, Nat.sub_diag. reflexivity. }
  rewrite Hskip in Hcalls, Henq. rewrite Hrun.
  split; [exact Henq|]. split; [exact Hcalls | apply joinData_app].
Qed.

Lemma growth_delivers_the_new_chunks_witness :
  let p := [mkChunk 1 "ls"; mkChunk 2 " -l"] in
  let q := [mkChunk 3 " /tmp"; mkChunk 4 "!"] in
  terminalRef (host mounted) = true
  /\ writesOf (calls (reconcileChunks (p ++ q) (reconcileChunks p mounted)))
     = ["ls -l"; " /tmp!"].
Proof.
  intros p q. split; [reflexivity|].
  assert (Hp : p <> []) by discriminate.
  assert (Hq : q <> []) by discriminate.
  destruct (@growth_delivers_the_new_chunks p q mounted eq_refl Hp Hq)
    as (_ & Hc & _).
  rewrite Hc. reflexivity.
Defined.

(** X6: on a non-empty sequence the terminal is reset exactly when the store
    was replaced: among the calls a reconciliation adds there is a [reset()]
    if and only if the recorded first id differs from the current one or the
    cursor is past the end. *)
Theorem reset_exactly_when_replaced
    (c : TerminalChunk) (rest : list TerminalChunk) (w : World) :
  terminalRef (host w) = true ->
  exists added,
    calls (reconcileChunks (c :: rest) w) = calls w ++ added
    /\ (In TermReset added
        <-> replaced (id c) (List.length (c :: rest)) (refs w)).
Proof.
  intros Hm.
  destruct (replaced_dec (id c) (List.length (c :: rest)) (refs w)) as [Hr | Hn].
  - rewrite (@reset_run c rest w Hm Hr).
    destruct (writeDelta_effect (c :: rest) (resetForNewSequence (id c) w) Hm)
      as [Hgrow _].
    destruct (Hgrow ltac:(cbn; lia)) as [Hc _].
    exists (TermReset :: written (joinData (c :: rest))).
    split; [|split; [intros _; exact Hr | intros _; left; reflexivity]].
    rewrite Hc. cbn [calls resetForNewSequence setFirstChunkId resetWriteState
                     withRefs call refs processedCountRef skipn].
    rewrite <- app_assoc. reflexivity.
  - rewrite (@no_reset_run c rest w Hm Hn).
    destruct (writeDelta_effect (c :: rest) (setFirstChunkId (Some (id c)) w) Hm)
      as [Hgrow Hsame].
    destruct (Nat.le_gt_cases (List.length (c :: rest)) (processedCountRef (refs w)))
      as [Hle | Hlt].
    + exists []. rewrite (Hsame Hle), app_nil_r.
      split; [reflexivity|]. split; [intros [] | intros Hr; contradiction].
    + destruct (Hgrow Hlt) as [Hc _]. eexists. split; [exact Hc|].
      split; [intros Hin; exfalso; exact (written_no_reset _ Hin)
             | intros Hr; contradiction].
Qed.

Lemma reset_exactly_when_replaced_witness :
  let w := reconcileChunks [mkChunk 1 "a"; mkChunk 2 "b"; mkChunk 3 "c"] mounted in
  terminalRef (host w) = true
  /\ replaced 1 1 (refs w)
  /\ In TermReset (calls (reconcileChunks [mkChunk 1 "a"] w)).
Proof.
  intro w.
  assert (Hr : replaced 1 1 (refs w)) by (right; cbn; lia).
  destruct (@reset_exactly_when_replaced (mkChunk 1 "a") [] w eq_refl)
    as (added & Hc & Hiff).
  split; [reflexivity|]. split; [exact Hr|].
  rewrite Hc. apply in_or_app. right. apply Hiff. exact Hr.
Defined.

(** X7: an empty store.  With the cursor at 0 the reconciliation does
    nothing; otherwise it resets the terminal, puts the four refs back to
    their initial values, hands nothing to [enqueueWrite], and refits if a fit
    is possible. *)
Theorem empty_store_resets (w : World) :
  terminalRef (host w) = true ->
  (processedCountRef (refs w) = O -> reconcileChunks [] w = w)
  /\ (processedCountRef (refs w) <> O ->
      refs (reconcileChunks [] w) = mkRefs [] false 0 None
      /\ enqueued (reconcileChunks [] w) = enqueued w
      /\ exists fitted,
           calls (reconcileChunks [] w) = calls w ++ TermReset :: fitted
           /\ (fitPossible (host w) -> fitted = fitCalls (host w))
           /\ (~ fitPossible (host w) -> fitted = [])).
Proof.
  intros Hm. unfold reconcileChunks. rewrite Hm. cbn [negb]. split; intros Hp.
  - rewrite Hp. reflexivity.
  - apply Nat.eqb_neq in Hp. rewrite Hp.
    set (w1 := resetWriteState (call TermReset w)).
    destruct (@fit_cases_calls w1) as (fitted & Hc & Hyes & Hno).
    split; [rewrite fitTerminal_refs; reflexivity|].
    split; [destruct (fitTerminal_cases w1) as [[_ Hf] | [_ Hf]]; rewrite Hf;
            [destruct (fitGrid (host w1)) as [[cols rows]|]|]; reflexivity|].
    exists fitted. split; [|split; assumption].
    rewrite Hc. unfold w1. cbn [calls resetWriteState withRefs call].
    rewrite <- app_assoc. reflexivity.
Qed.

Lemma empty_store_resets_witness :
  let w := reconcileChunks [mkChunk 1 "a"] mounted in
  terminalRef (host w) = true
  /\ reconcileChunks [] mounted = mounted
  /\ processedCountRef (refs w) <> O
  /\ refs (reconcileChunks [] w) = mkRefs [] false 0 None.
Proof.
  intro w.
  assert (Hp : processedCountRef (refs w) <> O) by discriminate.
  destruct (@empty_store_resets mounted eq_refl) as [Hidle _].
  destruct (@empty_store_resets w eq_refl) as [_ Hreset].
  split; [reflexivity|]. split; [apply Hidle; reflexivity|].
  split; [exact Hp | exact (proj1 (Hreset Hp))].
Defined.

(** X8: [clear] (and a change of session, which makes the same calls) puts
    the cursor back to the start, so the next reconciliation of a non-empty
    store writes the data of the whole store again, without a second
    reset. *)
Theorem clear_then_replay
    (c : TerminalChunk) (rest : list TerminalChunk) (w : World) :
  terminalRef (host w) = true ->
  refs (clear w) = mkRefs [] false 0 None
  /\ calls (reconcileChunks (c :: rest) (clear w))
     = calls (clear w) ++ written (joinData (c :: rest))
  /\ enqueued (reconcileChunks (c :: rest) (clear w))
     = enqueued w ++ [joinData (c :: rest)].
Proof.
  intros Hm.
  assert (Hrefs : refs (clear w) = mkRefs [] false 0 None).
  { unfold clear. rewrite Hm. cbn [negb]. rewrite fitTerminal_refs. reflexivity. }
  assert (Hm1 : terminalRef (host (clear w)) = true).
  { rewrite clear_host. exact Hm. }
  assert (Henq : enqueued (clear w) = enqueued w).
  { unfold clear. rewrite Hm. cbn [negb].
    rewrite fitTerminal_enqueued. reflexivity. }
  assert (Hn : ~ replaced (id c) (List.length (c :: rest)) (refs (clear w))).
  { rewrite Hrefs. intros [(f & Hf & _) | Hlt]; [discriminate | cbn in Hlt; lia]. }
  split; [exact Hrefs|].
  rewrite (@no_reset_run c rest (clear w) Hm1 Hn).
  destruct (writeDelta_effect (c :: rest)
              (setFirstChunkId (Some (id c)) (clear w)) Hm1) as [Hgrow _].
  cbn [refs setFirstChunkId withRefs processedCountRef] in Hgrow.
  rewrite Hrefs in Hgrow. cbn [processedCountRef skipn] in Hgrow.
  destruct (Hgrow ltac:(cbn; lia)) as [Hc He].
  split; [exact Hc | rewrite He, <- Henq; reflexivity].
Qed.

Lemma clear_then_replay_witness :
  let store := [mkChunk 1 "a"; mkChunk 2 "b"] in
  let w := reconcileChunks store mounted in
  terminalRef (host w) = true
  /\ calls (reconcileChunks store (clear w))
     = [TermWrite "ab"; TermReset; FitAddonFit; OnResize 80 24; TermWrite "ab"].
Proof.
  intros store w. split; [reflexivity|].
  destruct (@clear_then_replay (mkChunk 1 "a") [mkChunk 2 "b"] w eq_refl)
    as (_ & Hc & _).
  exact Hc.
Defined.

End Events.

(** ** Part VII: the engine over whole gestures *)

Section Gestures.

Import Kinetic Gesture.
Local Open Scope Q_scope.

Lemma clampVelocity_capped (v : Q) : Qabs (clampVelocity v) <= maxVelocity.
Proof.
  unfold clampVelocity, maxVelocity.
  destruct (Qltb 8 v) eqn:Hhi; [discriminate|].
  destruct (Qltb v (- (8))) eqn:Hlo; [discriminate|].
  apply Qltb_ge in Hhi. apply Qltb_ge in Hlo.
  apply Qabs_Qle_condition. split; assumption.
Qed.

Lemma sign_le_one (v : Q) : Qabs (sign v) <= 1.
Proof. destruct v as [[|p|p] d]; unfold sign; cbn; discriminate. Qed.

Lemma stopKinetic_velocity (e : Engine) : velocity (stopKinetic e) = velocity e.
Proof. unfold stopKinetic. destruct (rafId e); reflexivity. Qed.

Lemma decayed_capped (v dt : Q) :
  Qabs v <= maxVelocity -> 0 <= dt ->
  Qabs (Qmax 0 (Qabs v - deceleration * dt) * sign v) <= maxVelocity.
Proof.
  unfold maxVelocity, deceleration. intros Hv Hdt.
  set (m := Qmax 0 (Qabs v - 0.015 * dt)).
  assert (Hm0 : 0 <= m) by apply Q.le_max_l.
  assert (Hm : m <= Qabs v).
  { apply Q.max_lub; [apply Qabs_nonneg | lra]. }
  rewrite Qabs_Qmult, (Qabs_pos m Hm0).
  pose proof (sign_le_one v) as Hs. pose proof (Qabs_nonneg (sign v)) as Hs0.
  assert (Hprod : m * Qabs (sign v) <= m * 1).
  { rewrite !(Qmult_comm m). apply Qmult_le_compat_r; assumption. }
  lra.
Qed.

Lemma step_capped (frameTime lastFrame : Q) (e : Engine) :
  capped e -> capped (step frameTime lastFrame e).
Proof.
  unfold capped, step. intros He.
  destruct (scrollByPixels (velocity e * Qmax (frameTime - lastFrame) 8) (viewport e))
    as [v' result].
  match goal with |- context [if ?b then _ else _] => destruct b end.
  - cbn [velocity setVelocity]. discriminate.
  - cbn [velocity setVelocity requestAnimationFrame setViewport].
    apply decayed_capped; [exact He|].
    eapply Qle_trans; [|apply Q.le_max_r]. discriminate.
Qed.

Lemma trackSample_capped (deltaY elapsed : Q) (e : Engine) :
  capped (trackSample deltaY elapsed e).
Proof.
  unfold capped, trackSample. cbn [velocity setViewport setVelocity].
  apply clampVelocity_capped.
Qed.

Lemma release_capped (now : Q) (e : Engine) : capped e -> capped (release now e).
Proof.
  unfold capped, release. intros He.
  destruct (Qltb (Qabs (velocity e)) minVelocity); [discriminate | exact He].
Qed.

Lemma react_capped (e : Engine) (i : Input) : capped e -> capped (react e i).
Proof.
  intros He.
  destruct i as [ev now | ev now | ev now | ts now | ts now | now | now];
    cbn [react].
  - unfold handlePointerDown.
    destruct (negb (isTouch (pointerType ev))); [exact He | discriminate].
  - unfold handlePointerMove.
    destruct (negb (isTouch (pointerType ev))
              || negb (samePointer (pointerId e) (eventPointerId ev)));
      [exact He|].
    destruct (lastY e) as [previousY|]; [|exact He].
    destruct (Qltb (Qabs (previousY - clientY ev)) 1); [exact He|].
    apply trackSample_capped.
  - unfold handlePointerUp.
    destruct (negb (isTouch (pointerType ev))
              || negb (samePointer (pointerId e) (eventPointerId ev)));
      [exact He|].
    apply release_capped. exact He.
  - unfold handleTouchStart.
    destruct ts as [|y [|y' ts]]; try exact He. discriminate.
  - unfold handleTouchMove.
    destruct ts as [|y [|y' ts]];
      try (unfold capped; rewrite stopKinetic_velocity; discriminate).
    destruct (lastY e) as [previousY|]; [|exact He].
    destruct (Qltb (Qabs (previousY - y)) 1); [exact He|].
    apply trackSample_capped.
  - unfold handleTouchEnd. apply release_capped. exact He.
  - unfold animationFrame. destruct (pending e) as [|[h lastFrame] rest];
      [exact He|].
    apply step_capped. exact He.
Qed.

(** X9: the velocity cap is an invariant of the engine.  From a velocity of
    magnitude at most 8 px/ms, no sequence of presses, move samples, releases
    and animation frames, on either path, leads to a larger one. *)
Theorem velocity_stays_capped (e : Engine) (inputs : list Input) :
  capped e -> capped (fold_left react inputs e).
Proof.
  revert e. induction inputs as [|i inputs IH]; intros e He; [exact He|].
  cbn [fold_left]. apply IH. apply react_capped. exact He.
Qed.

Lemma velocity_stays_capped_witness :
  let inputs := [PointerMove (mkPointerEvent touch 7 (-5000)) 1;
                 PointerMove (mkPointerEvent touch 7 (-10000)) 2;
                 PointerUp (mkPointerEvent touch 7 (-10000)) 3] in
  capped dragging
  /\ capped (fold_left react inputs dragging)
  /\ velocity (fold_left react inputs dragging) == 8.
Proof.
  intro inputs.
  assert (H0 : capped dragging) by (unfold capped; discriminate).
  split; [exact H0|].
  split; [apply (@velocity_stays_capped dragging inputs H0) | reflexivity].
Defined.

(** X10: the scroll multiplier lies between 2.2 and 5 for every sample; it
    grows with the distance, [2.2 + |deltaY| / 25], up to 70 pixels, and is
    exactly 5 from there on. *)
Theorem scroll_multiplier_bounds (deltaY : Q) :
  baseScrollMultiplier <= scrollMultiplier deltaY
  /\ scrollMultiplier deltaY <= 5
  /\ (Qabs deltaY <= 70 -> scrollMultiplier deltaY == 2.2 + Qabs deltaY / 25)
  /\ (70 <= Qabs deltaY -> scrollMultiplier deltaY == 5).
Proof.
  unfold scrollMultiplier, baseScrollMultiplier, maxScrollBoost, boostDenominator.
  pose proof (Qabs_nonneg deltaY) as H0.
  set (a := Qabs deltaY) in *.
  assert (Hdiv : a / 25 == a * (1 # 25)) by (unfold Qdiv; reflexivity).
  rewrite Hdiv.
  destruct (Q.min_spec 2.8 (a * (1 # 25))) as [[Hlt Hmin] | [Hle Hmin]];
    rewrite Hmin; repeat split; try lra; intros H; lra.
Qed.

Lemma scroll_multiplier_bounds_witness :
  Qabs 10 <= 70 /\ scrollMultiplier 10 == 2.6
  /\ 70 <= Qabs (-200) /\ scrollMultiplier (-200) == 5.
Proof.
  assert (Hs : Qabs 10 <= 70) by discriminate.
  assert (Hl : 70 <= Qabs (-200)) by discriminate.
  destruct (scroll_multiplier_bounds 10) as (_ & _ & Hsmall & _).
  destruct (scroll_multiplier_bounds (-200)) as (_ & _ & _ & Hlarge).
  split; [exact Hs|]. split; [rewrite (Hsmall Hs); reflexivity|].
  split; [exact Hl | exact (Hlarge Hl)].
Defined.

Lemma stopKinetic_oneLoop (e : Engine) :
  oneLoop e -> pending (stopKinetic e) = [] /\ rafId (stopKinetic e) = None.
Proof.
  unfold stopKinetic, cancelAnimationFrame.
  intros [Hp | (_ & h & lastFrame & Hp & Hr)].
  - destruct (rafId e); cbn [pending rafId]; rewrite Hp; split; reflexivity.
  - rewrite Hr. cbn [pending rafId]. rewrite Hp. cbn [filter fst].
    rewrite Nat.eqb_refl. split; reflexivity.
Qed.

Lemma trackSample_loop (deltaY elapsed : Q) (e : Engine) :
  pending (trackSample deltaY elapsed e) = pending e
  /\ rafId (trackSample deltaY elapsed e) = rafId e
  /\ pointerId (trackSample deltaY elapsed e) = pointerId e.
Proof. repeat split; reflexivity. Qed.

Lemma handlePointerMove_loop (ev : PointerEvent) (now : Q) (e : Engine) :
  pending (handlePointerMove ev now e) = pending e
  /\ rafId (handlePointerMove ev now e) = rafId e
  /\ pointerId (handlePointerMove ev now e) = pointerId e.
Proof.
  unfold handlePointerMove.
  destruct (negb (isTouch (pointerType ev))
            || negb (samePointer (pointerId e) (eventPointerId ev)));
    [repeat split; reflexivity|].
  destruct (lastY e) as [previousY|]; [|repeat split; reflexivity].
  destruct (Qltb (Qabs (previousY - clientY ev)) 1); repeat split; reflexivity.
Qed.

Lemma release_oneLoop (now : Q) (e : Engine) :
  pending e = [] -> pointerId e = None -> oneLoop (release now e).
Proof.
  intros Hp Hid. unfold release.
  destruct (Qltb (Qabs (velocity e)) minVelocity).
  - left. exact Hp.
  - right. split; [exact Hid|].
    exists (nextHandle e), now. cbn [pending rafId requestAnimationFrame].
    rewrite Hp. split; reflexivity.
Qed.

Lemma step_oneLoop (frameTime lastFrame : Q) (e : Engine) :
  pending e = [] -> pointerId e = None -> oneLoop (step frameTime lastFrame e).
Proof.
  intros Hp Hid. unfold step.
  destruct (scrollByPixels (velocity e * Qmax (frameTime - lastFrame) 8) (viewport e))
    as [v' result].
  match goal with |- context [if ?b then _ else _] => destruct b end.
  - left. cbn [pending setVelocity].
    apply stopKinetic_oneLoop. left. exact Hp.
  - right. split; [exact Hid|].
    exists (nextHandle e), frameTime.
    cbn [pending rafId requestAnimationFrame setVelocity setViewport nextHandle].
    rewrite Hp. split; reflexivity.
Qed.

Lemma samePointer_some (p : option Z) (i : Z) :
  samePointer p i = true -> p = Some i.
Proof.
  destruct p as [x|]; cbn; [|discriminate].
  intros H. apply Z.eqb_eq in H. subst. reflexivity.
Qed.

Lemma react_oneLoop (e : Engine) (i : Input) :
  pointerInput i = true -> oneLoop e -> oneLoop (react e i).
Proof.
  intros Hi He.
  destruct i as [ev now | ev now | ev now | ts now | ts now | now | now];
    try discriminate; cbn [react].
  - unfold handlePointerDown.
    destruct (negb (isTouch (pointerType ev))); [exact He|].
    left. cbn [pending setVelocity setLast setPointerId].
    apply stopKinetic_oneLoop. exact He.
  - destruct (handlePointerMove_loop ev now e) as (Hp & Hr & Hid).
    unfold oneLoop. rewrite Hp, Hr, Hid. exact He.
  - unfold handlePointerUp.
    destruct (isTouch (pointerType ev)); cbn [negb orb]; [|exact He].
    destruct (samePointer (pointerId e) (eventPointerId ev)) eqn:Hs;
      cbn [negb]; [|exact He].
    apply samePointer_some in Hs.
    apply release_oneLoop; [|reflexivity].
    destruct He as [Hp | (Hid & _)]; [exact Hp | congruence].
  - unfold animationFrame.
    destruct He as [Hp | (Hid & h & lastFrame & Hp & Hr)]; rewrite Hp.
    + left. exact Hp.
    + apply step_oneLoop; [reflexivity | exact Hid].
Qed.

(** X11: on the pointer path at most one animation callback is ever
    pending.  From an engine in which at most one is pending, which [rafId]
    names, and none while a pointer is tracked, every sequence of pointer
    presses, moves, releases and animation frames leads to such an engine. *)
Theorem pointer_path_runs_one_loop (e : Engine) (inputs : list Input) :
  oneLoop e ->
  Forall (fun i => pointerInput i = true) inputs ->
  oneLoop (fold_left react inputs e)
  /\ (List.length (pending (fold_left react inputs e)) <= 1)%nat.
Proof.
  intros He Hall.
  assert (H : oneLoop (fold_left react inputs e)).
  { revert e He. induction Hall as [|i inputs Hi Hall IH]; intros e He; [exact He|].
    cbn [fold_left]. apply IH. apply react_oneLoop; assumption. }
  split; [exact H|].
  destruct H as [Hp | (_ & h & lastFrame & Hp & _)]; rewrite Hp; cbn; lia.
Qed.

Lemma pointer_path_runs_one_loop_witness :
  let ev := mkPointerEvent touch 7 40 in
  let inputs := [PointerMove ev 10; PointerUp ev 20; PointerUp ev 21;
                 AnimationFrame 36; PointerDown ev 40; PointerMove (mkPointerEvent touch 7 0) 50;
                 PointerUp ev 60; AnimationFrame 76] in
  oneLoop dragging
  /\ Forall (fun i => pointerInput i = true) inputs
  /\ (List.length (pending (fold_left react inputs dragging)) <= 1)%nat.
Proof.
  intros ev inputs.
  assert (H0 : oneLoop dragging) by (left; reflexivity).
  assert (Hall : Forall (fun i => pointerInput i = true) inputs)
    by (repeat constructor).
  split; [exact H0|]. split; [exact Hall|].
  exact (proj2 (@pointer_path_runs_one_loop dragging inputs H0 Hall)).
Defined.

(** X12: the touch path has no such guard.  [handleTouchEnd] does not look
    at [rafId], so two ends in a row (a [touchend] per lifted finger, or a
    [touchend] and a [touchcancel]) of a flick leave two callbacks pending,
    and the next press cancels only the one scheduled last. *)
Theorem touch_end_twice_runs_two_loops (e : Engine) (t1 t2 t3 y : Q) :
  pending e = [] ->
  minVelocity <= Qabs (velocity e) ->
  pending (handleTouchEnd t2 (handleTouchEnd t1 e))
  = [(nextHandle e, t1); (S (nextHandle e), t2)]
  /\ pending (handleTouchStart [y] t3 (handleTouchEnd t2 (handleTouchEnd t1 e)))
     = [(nextHandle e, t1)].
Proof.
  intros Hp Hv. apply Qltb_ge in Hv.
  assert (H1 : handleTouchEnd t1 e
               = requestAnimationFrame t1 (setLast None None e)).
  { unfold handleTouchEnd, release. cbn [velocity setLast]. rewrite Hv.
    reflexivity. }
  assert (H2 : handleTouchEnd t2 (handleTouchEnd t1 e)
               = requestAnimationFrame t2
                   (setLast None None (requestAnimationFrame t1 (setLast None None e)))).
  { rewrite H1. unfold handleTouchEnd, release.
    cbn [velocity setLast requestAnimationFrame]. rewrite Hv. reflexivity. }
  rewrite H2.
  unfold handleTouchStart, stopKinetic, cancelAnimationFrame.
  cbn [rafId pending setLast setVelocity requestAnimationFrame nextHandle].
  rewrite Hp. cbn [app filter fst].
  rewrite Nat.eqb_refl.
  assert (Hne : Nat.eqb (nextHandle e) (S (nextHandle e)) = false)
    by (apply Nat.eqb_neq; lia).
  rewrite Hne. split; reflexivity.
Qed.

Lemma touch_end_twice_runs_two_loops_witness :
  pending (flicked 2) = []
  /\ minVelocity <= Qabs (velocity (flicked 2))
  /\ pending (handleTouchEnd 31 (handleTouchEnd 30 (flicked 2)))
     = [(0%nat, 30); (1%nat, 31)]
  /\ pending (handleTouchStart [80] 40 (handleTouchEnd 31 (handleTouchEnd 30 (flicked 2))))
     = [(0%nat, 30)].
Proof.
  assert (Hv : minVelocity <= Qabs (velocity (flicked 2))) by discriminate.
  destruct (@touch_end_twice_runs_two_loops (flicked 2) 30 31 40 80 eq_refl Hv)
    as [H2 H1].
  split; [reflexivity|]. split; [exact Hv|]. split; [exact H2 | exact H1].
Defined.

Lemma frames_when_idle (times : list Q) (e : Engine) :
  pending e = [] -> fold_left react (map AnimationFrame times) e = e.
Proof.
  intros Hp. induction times as [|t times IH]; [reflexivity|].
  cbn [map fold_left react]. unfold animationFrame. rewrite Hp. exact IH.
Qed.

(** X13: a press, and the teardown of the engine, cancel the inertial
    animation.  With at most one callback pending, after [handlePointerDown]
    of a touch pointer, [handleTouchStart] of a single touch or [stopKinetic]
    (the cleanup of lines 292-299 and 403-410) none is pending, [rafId] is
    empty, and animation frames that arrive later change nothing. *)
Theorem press_cancels_inertia (e : Engine) (ev : PointerEvent) (y now : Q) :
  oneLoop e ->
  pointerType ev = touch ->
  forall e',
    e' = handlePointerDown ev now e \/ e' = handleTouchStart [y] now e
    \/ e' = stopKinetic e ->
    pending e' = [] /\ rafId e' = None
    /\ forall times, fold_left react (map AnimationFrame times) e' = e'.
Proof.
  intros He Hev e' Hcase.
  destruct (stopKinetic_oneLoop He) as [Hp Hr].
  assert (H : pending e' = [] /\ rafId e' = None).
  { destruct Hcase as [H | [H | H]]; subst e'.
    - unfold handlePointerDown. rewrite Hev. split; assumption.
    - split; assumption.
    - split; assumption. }
  destruct H as [Hp' Hr']. split; [exact Hp'|]. split; [exact Hr'|].
  intros times. apply frames_when_idle. exact Hp'.
Qed.

Lemma press_cancels_inertia_witness :
  oneLoop coasting
  /\ pending (handlePointerDown (mkPointerEvent touch 3 120) 9 coasting) = []
  /\ fold_left react (map AnimationFrame [16; 32])
       (handleTouchStart [120] 9 coasting)
     = handleTouchStart [120] 9 coasting.
Proof.
  assert (H0 : oneLoop coasting).
  { right. split; [reflexivity|]. exists 4%nat, 0. split; reflexivity. }
  pose proof (@press_cancels_inertia coasting (mkPointerEvent touch 3 120) 120 9
                H0 eq_refl) as H.
  split; [exact H0|].
  split; [exact (proj1 (H _ (or_introl eq_refl)))|].
  exact (proj2 (proj2 (H _ (or_intror (or_introl eq_refl)))) [16; 32]).
Defined.

Lemma step_scrolls (frameTime lastFrame : Q) (e : Engine) :
  viewport (step frameTime lastFrame e)
  = fst (scrollByPixels (velocity e * Qmax (frameTime - lastFrame) 8) (viewport e)).
Proof.
  unfold step.
  destruct (scrollByPixels (velocity e * Qmax (frameTime - lastFrame) 8) (viewport e))
    as [v' result].
  match goal with |- context [if ?b then _ else _] => destruct b end;
    cbn [viewport setVelocity requestAnimationFrame setViewport fst];
    rewrite ?stopKinetic_viewport; reflexivity.
Qed.

(** At an end of the range, a scroll further out does not move. *)
Lemma scrollByPixels_stuck (d : Q) (v : Element) :
  clientHeight v <= scrollHeight v ->
  (scrollTop v == scrollHeight v - clientHeight v /\ 0 < d)
  \/ (scrollTop v == 0 /\ d < 0) ->
  moves d v = false /\ scrollTop (fst (scrollByPixels d v)) == scrollTop v.
Proof.
  intros Hgeo Hedge. unfold moves, scrollByPixels.
  destruct (Qeq_bool d 0); cbn [fst snd]; [split; reflexivity|].
  assert (Hsame : scrollTop (setScrollTop (scrollTop v + d) v) == scrollTop v).
  { unfold setScrollTop, getMaxScrollTop. cbn [scrollTop].
    set (M := Qmax 0 (scrollHeight v - clientHeight v)).
    set (m := Qmin M (scrollTop v + d)).
    destruct (Q.max_spec 0 (scrollHeight v - clientHeight v)) as [[H1 H2] | [H1 H2]];
      fold M in H2;
      destruct (Q.min_spec M (scrollTop v + d)) as [[H3 H4] | [H3 H4]];
      fold m in H4;
      destruct (Q.max_spec 0 m) as [[H5 H6] | [H5 H6]];
      rewrite H6; destruct Hedge as [[He Hd] | [He Hd]]; lra. }
  split; [|exact Hsame].
  apply negb_false_iff. apply Qeq_bool_iff. exact Hsame.
Qed.

(** X14: inertia stops at an end of the range.  A frame that runs with the
    offset at the bottom and a downward velocity, or at the top and an upward
    one, leaves the offset where it is and ends the animation. *)
Theorem inertia_stops_at_the_edge (frameTime lastFrame : Q) (e : Engine) :
  pending e = [] ->
  clientHeight (viewport e) <= scrollHeight (viewport e) ->
  (scrollTop (viewport e) == scrollHeight (viewport e) - clientHeight (viewport e)
   /\ 0 < velocity e)
  \/ (scrollTop (viewport e) == 0 /\ velocity e < 0) ->
  stopped (step frameTime lastFrame e)
  /\ scrollTop (viewport (step frameTime lastFrame e)) == scrollTop (viewport e).
Proof.
  intros Hp Hgeo Hedge.
  set (dt := Qmax (frameTime - lastFrame) 8).
  assert (Hdt : 0 < dt).
  { apply Qlt_le_trans with 8; [reflexivity | apply Q.le_max_r]. }
  assert (Hd : (scrollTop (viewport e)
                == scrollHeight (viewport e) - clientHeight (viewport e)
                /\ 0 < velocity e * dt)
               \/ (scrollTop (viewport e) == 0 /\ velocity e * dt < 0)).
  { destruct Hedge as [[He Hv] | [He Hv]]; [left | right]; split; try exact He.
    - apply Qmult_lt_0_compat; assumption.
    - assert (H : 0 < (- velocity e) * dt)
        by (apply Qmult_lt_0_compat; [lra | exact Hdt]).
      assert (Hr : (- velocity e) * dt == - (velocity e * dt)) by ring.
      rewrite Hr in H. lra. }
  destruct (@scrollByPixels_stuck (velocity e * dt) (viewport e) Hgeo Hd)
    as [Hstuck Hsame].
  split.
  - pose proof (@step_outcome frameTime lastFrame e Hp) as H.
    cbv zeta in H. fold dt in H. rewrite Hstuck in H. exact H.
  - rewrite step_scrolls. exact Hsame.
Qed.

Lemma inertia_stops_at_the_edge_witness :
  let e := mkEngine None None 3 None None (mkElement 900 1000 100) [] 1 in
  scrollTop (viewport e) == scrollHeight (viewport e) - clientHeight (viewport e)
  /\ 0 < velocity e
  /\ stopped (step 16 0 e)
  /\ scrollTop (viewport (step 16 0 e)) == 900.
Proof.
  intro e.
  assert (Hedge : scrollTop (viewport e)
                  == scrollHeight (viewport e) - clientHeight (viewport e))
    by reflexivity.
  assert (Hv : 0 < velocity e) by reflexivity.
  assert (Hgeo : clientHeight (viewport e) <= scrollHeight (viewport e))
    by discriminate.
  destruct (@inertia_stops_at_the_edge 16 0 e eq_refl Hgeo
              (or_introl (conj Hedge Hv))) as [Hs Hsame].
  split; [exact Hedge|]. split; [exact Hv|]. split; [exact Hs | exact Hsame].
Defined.

Lemma jitter_moves_pointer (p : Z) (samples : list (Q * Q)) :
  forall (e : Engine) (y : Q),
    pointerId e = Some p -> lastY e = Some y -> jitterOnly y samples ->
    viewport (fold_left react (pointerMoves p samples) e) = viewport e
    /\ velocity (fold_left react (pointerMoves p samples) e) = velocity e
    /\ pending (fold_left react (pointerMoves p samples) e) = pending e
    /\ pointerId (fold_left react (pointerMoves p samples) e) = Some p.
Proof.
  induction samples as [|[y' t] samples IH]; intros e y Hid Hy Hj.
  - repeat split; [exact Hid].
  - cbn [jitterOnly fst] in Hj. destruct Hj as [Hd Hj]. apply Qltb_lt in Hd.
    cbn [pointerMoves map fold_left react fst snd].
    assert (H1 : handlePointerMove (mkPointerEvent touch p y') t e
                 = setLast (Some y') (Some t) e).
    { unfold handlePointerMove.
      cbn [pointerType eventPointerId clientY isTouch negb orb].
      rewrite Hid. cbn [samePointer]. rewrite Z.eqb_refl. cbn [negb].
      rewrite Hy, Hd. reflexivity. }
    rewrite H1.
    exact (IH (setLast (Some y') (Some t) e) y' Hid eq_refl Hj).
Qed.

Lemma jitter_moves_touch (samples : list (Q * Q)) :
  forall (e : Engine) (y : Q),
    lastY e = Some y -> jitterOnly y samples ->
    viewport (fold_left react (touchMoves samples) e) = viewport e
    /\ velocity (fold_left react (touchMoves samples) e) = velocity e
    /\ pending (fold_left react (touchMoves samples) e) = pending e.
Proof.
  induction samples as [|[y' t] samples IH]; intros e y Hy Hj.
  - repeat split.
  - cbn [jitterOnly fst] in Hj. destruct Hj as [Hd Hj]. apply Qltb_lt in Hd.
    cbn [touchMoves map fold_left react fst snd].
    assert (H1 : handleTouchMove [y'] t e = setLast (Some y') (Some t) e).
    { unfold handleTouchMove. rewrite Hy, Hd. reflexivity. }
    rewrite H1.
    exact (IH (setLast (Some y') (Some t) e) y' eq_refl Hj).
Qed.

Lemma release_at_rest (now : Q) (e : Engine) :
  velocity e = 0 ->
  viewport (release now e) = viewport e /\ velocity (release now e) = 0
  /\ pending (release now e) = pending e.
Proof.
  intros Hv. unfold release. rewrite Hv.
  change (Qltb (Qabs 0) minVelocity) with true. repeat split; reflexivity.
Qed.

(** X15: a drag made of sub-pixel samples never scrolls, however far it
    travels in all.  After a press, any number of move samples each less than
    one pixel from the one before, and the release, the viewport is as it was,
    the velocity is 0 and no animation frame has been requested; this holds on
    both paths. *)
Theorem subpixel_drag_never_scrolls
    (e : Engine) (p : Z) (y0 t0 yUp tUp : Q) (samples : list (Q * Q)) :
  jitterOnly y0 samples ->
  let viaPointer :=
    fold_left react
      (PointerDown (mkPointerEvent touch p y0) t0
         :: pointerMoves p samples ++ [PointerUp (mkPointerEvent touch p yUp) tUp]) e in
  let viaTouch :=
    fold_left react (TouchStart [y0] t0 :: touchMoves samples ++ [TouchEnd tUp]) e in
  viewport viaPointer = viewport e /\ velocity viaPointer = 0
  /\ pending viaPointer = pending (stopKinetic e)
  /\ viewport viaTouch = viewport e /\ velocity viaTouch = 0
  /\ pending viaTouch = pending (stopKinetic e).
Proof.
  intros Hj viaPointer viaTouch.
  assert (Hpointer : viewport viaPointer = viewport e /\ velocity viaPointer = 0
                     /\ pending viaPointer = pending (stopKinetic e)).
  { unfold viaPointer. cbn [fold_left react]. rewrite fold_left_app.
    set (pressed := handlePointerDown (mkPointerEvent touch p y0) t0 e).
    destruct (@jitter_moves_pointer p samples pressed y0 eq_refl eq_refl Hj)
      as (Hv & Hvel & Hp & Hid).
    set (dragged := fold_left react (pointerMoves p samples) pressed) in *.
    cbn [fold_left react]. unfold handlePointerUp.
    cbn [pointerType eventPointerId isTouch negb orb].
    rewrite Hid. cbn [samePointer]. rewrite Z.eqb_refl. cbn [negb].
    destruct (@release_at_rest tUp (setLast None None (setPointerId None dragged)))
      as (Hrv & Hrvel & Hrp).
    { cbn [velocity setLast setPointerId]. rewrite Hvel. reflexivity. }
    rewrite Hrv, Hrvel, Hrp. cbn [viewport pending setLast setPointerId].
    rewrite Hv, Hp. unfold pressed, handlePointerDown.
    cbn [pointerType isTouch negb viewport pending setVelocity setLast setPointerId].
    rewrite stopKinetic_viewport. repeat split; reflexivity. }
  assert (Htouch : viewport viaTouch = viewport e /\ velocity viaTouch = 0
                   /\ pending viaTouch = pending (stopKinetic e)).
  { unfold viaTouch. cbn [fold_left react]. rewrite fold_left_app.
    set (pressed := handleTouchStart [y0] t0 e).
    destruct (@jitter_moves_touch samples pressed y0 eq_refl Hj) as (Hv & Hvel & Hp).
    set (dragged := fold_left react (touchMoves samples) pressed) in *.
    cbn [fold_left react]. unfold handleTouchEnd.
    destruct (@release_at_rest tUp (setLast None None dragged)) as (Hrv & Hrvel & Hrp).
    { cbn [velocity setLast]. rewrite Hvel. reflexivity. }
    rewrite Hrv, Hrvel, Hrp. cbn [viewport pending setLast].
    rewrite Hv, Hp. unfold pressed, handleTouchStart.
    cbn [viewport pending setVelocity setLast].
    rewrite stopKinetic_viewport. repeat split; reflexivity. }
  destruct Hpointer as (H1 & H2 & H3). destruct Htouch as (H4 & H5 & H6).
  repeat split; assumption.
Qed.

Lemma subpixel_drag_never_scrolls_witness :
  let samples := [(100.9, 10); (101.8, 20); (102.7, 30); (103.6, 40); (104.5, 50)] in
  jitterOnly 100 samples
  /\ viewport (fold_left react
                 (PointerDown (mkPointerEvent touch 7 100) 0
                    :: pointerMoves 7 samples
                    ++ [PointerUp (mkPointerEvent touch 7 104.5) 60]) coasting)
     = viewport coasting
  /\ pending (fold_left react
                (TouchStart [100] 0 :: touchMoves samples ++ [TouchEnd 60]) coasting)
     = [].
Proof.
  intro samples.
  assert (Hj : jitterOnly 100 samples).
  { cbn. repeat split; reflexivity. }
  destruct (@subpixel_drag_never_scrolls coasting 7 100 0 104.5 60 samples Hj)
    as (Hv & _ & _ & _ & _ & Hp).
  split; [exact Hj|]. split; [exact Hv | exact Hp].
Defined.

Lemma scrollMultiplier_range (deltaY : Q) :
  2.2 <= scrollMultiplier deltaY /\ scrollMultiplier deltaY <= 5.
Proof.
  unfold scrollMultiplier, baseScrollMultiplier, maxScrollBoost, boostDenominator.
  pose proof (Qabs_nonneg deltaY) as H0.
  set (a := Qabs deltaY) in *.
  assert (Hdiv : a / 25 == a * (1 # 25)) by (unfold Qdiv; reflexivity).
  rewrite Hdiv.
  destruct (Q.min_spec 2.8 (a * (1 # 25))) as [[Hlt Hmin] | [Hle Hmin]];
    rewrite Hmin; split; lra.
Qed.

(** How far a scroll by [d] pixels, [d] not zero, moves an offset that is in
    range. *)
Lemma scroll_amount (d : Q) (v : Element) :
  clientHeight v <= scrollHeight v -> inRange v -> ~ d == 0 ->
  (0 < d -> scrollTop v <= scrollTop (fst (scrollByPixels d v))
            /\ scrollTop (fst (scrollByPixels d v)) <= scrollTop v + d)
  /\ (d < 0 -> scrollTop v + d <= scrollTop (fst (scrollByPixels d v))
               /\ scrollTop (fst (scrollByPixels d v)) <= scrollTop v)
  /\ (0 <= scrollTop v + d /\ scrollTop v + d <= scrollHeight v - clientHeight v ->
      scrollTop (fst (scrollByPixels d v)) == scrollTop v + d).
Proof.
  intros Hgeo [Hlo Hhi] Hd. unfold scrollByPixels.
  destruct (Qeq_bool d 0) eqn:Hz.
  { exfalso. apply Hd. apply Qeq_bool_iff. exact Hz. }
  cbn [fst]. unfold setScrollTop, getMaxScrollTop. cbn [scrollTop].
  set (M := Qmax 0 (scrollHeight v - clientHeight v)).
  set (m := Qmin M (scrollTop v + d)).
  destruct (Q.max_spec 0 (scrollHeight v - clientHeight v)) as [[H1 H2] | [H1 H2]];
    fold M in H2;
    destruct (Q.min_spec M (scrollTop v + d)) as [[H3 H4] | [H3 H4]];
    fold m in H4;
    destruct (Q.max_spec 0 m) as [[H5 H6] | [H5 H6]];
    rewrite H6; repeat split; intros; lra.
Qed.

Lemma boosted_distance (deltaY : Q) :
  1 <= Qabs deltaY ->
  ~ deltaY * scrollMultiplier deltaY == 0
  /\ (0 < deltaY -> 0 < deltaY * scrollMultiplier deltaY
                    /\ deltaY * scrollMultiplier deltaY <= 5 * deltaY)
  /\ (deltaY < 0 -> deltaY * scrollMultiplier deltaY < 0
                    /\ 5 * deltaY <= deltaY * scrollMultiplier deltaY).
Proof.
  intros Hfar. destruct (scrollMultiplier_range deltaY) as [Hlo Hhi].
  set (m := scrollMultiplier deltaY) in *.
  assert (Hpos : 0 < deltaY -> 0 < deltaY * m /\ deltaY * m <= 5 * deltaY).
  { intros H. split; [apply Qmult_lt_0_compat; lra|].
    rewrite (Qmult_comm 5). rewrite !(Qmult_comm deltaY).
    apply Qmult_le_compat_r; lra. }
  assert (Hneg : deltaY < 0 -> deltaY * m < 0 /\ 5 * deltaY <= deltaY * m).
  { intros H.
    assert (H1 : 0 < (- deltaY) * m) by (apply Qmult_lt_0_compat; lra).
    assert (H2 : m * (- deltaY) <= 5 * (- deltaY))
      by (apply Qmult_le_compat_r; lra).
    assert (R1 : (- deltaY) * m == - (deltaY * m)) by ring.
    assert (R2 : m * (- deltaY) == - (deltaY * m)) by ring.
    rewrite R1 in H1. rewrite R2 in H2. split; lra. }
  split; [|split; assumption].
  intros Hz.
  destruct (Qlt_le_dec 0 deltaY) as [Hp | Hn].
  - destruct (Hpos Hp) as [H _]. lra.
  - destruct (Qlt_le_dec deltaY 0) as [Hn' | Hn'].
    + destruct (Hneg Hn') as [H _]. lra.
    + assert (H0 : deltaY == 0) by lra. rewrite H0 in Hfar.
      apply (Qle_not_lt _ _ Hfar). reflexivity.
Qed.

(** X16: a tracked sample scrolls the way the finger went, and not further
    than five times its travel.  For a sample at least one pixel away from
    the stored position, with the offset in range: a move up the screen
    ([deltaY > 0]) does not lower the offset and raises it by at most
    [5 * deltaY], a move down does the opposite, and when the boosted distance
    fits in the range the offset changes by exactly
    [deltaY * scrollMultiplier deltaY].  This holds on both paths. *)
Theorem drag_follows_the_finger
    (e e' : Engine) (p : Z) (previousY y now : Q) :
  lastY e = Some previousY ->
  clientHeight (viewport e) <= scrollHeight (viewport e) ->
  inRange (viewport e) ->
  1 <= Qabs (previousY - y) ->
  e' = handleTouchMove [y] now e
  \/ (pointerId e = Some p /\ e' = handlePointerMove (mkPointerEvent touch p y) now e) ->
  let deltaY := previousY - y in
  let before := scrollTop (viewport e) in
  let after := scrollTop (viewport e') in
  (0 < deltaY -> before <= after /\ after <= before + 5 * deltaY)
  /\ (deltaY < 0 -> before + 5 * deltaY <= after /\ after <= before)
  /\ (0 <= before + deltaY * scrollMultiplier deltaY
      /\ before + deltaY * scrollMultiplier deltaY
         <= scrollHeight (viewport e) - clientHeight (viewport e) ->
      after == before + deltaY * scrollMultiplier deltaY).
Proof.
  intros Hy Hgeo Hin Hfar Hcase deltaY before after.
  assert (Hview : viewport e'
                  = fst (scrollByPixels (deltaY * scrollMultiplier deltaY) (viewport e))).
  { pose proof Hfar as Hb. apply Qltb_ge in Hb.
    destruct Hcase as [H | [Hid H]]; subst e'.
    - unfold handleTouchMove. rewrite Hy, Hb. reflexivity.
    - unfold handlePointerMove.
      cbn [pointerType eventPointerId clientY isTouch negb orb].
      rewrite Hid. cbn [samePointer]. rewrite Z.eqb_refl. cbn [negb].
      rewrite Hy, Hb. reflexivity. }
  destruct (@boosted_distance deltaY Hfar) as (Hnz & Hup & Hdown).
  fold deltaY in Hnz, Hup, Hdown.
  destruct (@scroll_amount (deltaY * scrollMultiplier deltaY) (viewport e)
              Hgeo Hin Hnz) as (Hpos & Hneg & Hfit).
  unfold after. rewrite Hview. fold before in Hpos, Hneg, Hfit |- *.
  split; [|split].
  - intros H. destruct (Hup H) as [H1 H2]. destruct (Hpos H1) as [H3 H4].
    split; lra.
  - intros H. destruct (Hdown H) as [H1 H2]. destruct (Hneg H1) as [H3 H4].
    split; lra.
  - exact Hfit.
Qed.

Lemma drag_follows_the_finger_witness :
  let e' := handleTouchMove [90] 10 dragging in
  1 <= Qabs (100 - 90)
  /\ 0 < 100 - 90
  /\ scrollTop (viewport dragging) <= scrollTop (viewport e')
  /\ scrollTop (viewport e') == 76.
Proof.
  intro e'.
  assert (Hfar : 1 <= Qabs (100 - 90)) by discriminate.
  assert (Hup : 0 < 100 - 90) by reflexivity.
  assert (Hgeo : clientHeight (viewport dragging) <= scrollHeight (viewport dragging))
    by discriminate.
  assert (Hin : inRange (viewport dragging)) by (split; discriminate).
  destruct (@drag_follows_the_finger dragging e' 7 100 90 10 eq_refl Hgeo Hin Hfar
              (or_introl eq_refl)) as (Hpos & _ & Hfit).
  split; [exact Hfar|]. split; [exact Hup|].
  split; [exact (proj1 (Hpos Hup))|].
  rewrite Hfit; [reflexivity | split; discriminate].
Defined.

(** X17: a second finger ends the tracking on the touch path.  A
    [touchmove] that does not carry exactly one touch forgets the stored
    position, sets the velocity to 0 and empties [rafId] without scrolling,
    and the single-touch sample that follows only records its position: it
    neither scrolls nor changes the velocity. *)
Theorem second_finger_resets_tracking
    (e : Engine) (touches : list Q) (now y t : Q) :
  List.length touches <> 1%nat ->
  let e' := handleTouchMove touches now e in
  lastY e' = None /\ lastTime e' = None /\ velocity e' = 0 /\ rafId e' = None
  /\ viewport e' = viewport e
  /\ viewport (handleTouchMove [y] t e') = viewport e
  /\ velocity (handleTouchMove [y] t e') = 0
  /\ lastY (handleTouchMove [y] t e') = Some y.
Proof.
  intros Hlen e'.
  assert (He : e' = stopKinetic (setVelocity 0 (setLast None None e))).
  { unfold e', handleTouchMove. destruct touches as [|a [|b rest]];
      [reflexivity | cbn in Hlen; lia | reflexivity]. }
  assert (Hfields : lastY e' = None /\ lastTime e' = None /\ velocity e' = 0
                    /\ rafId e' = None /\ viewport e' = viewport e).
  { rewrite He. unfold stopKinetic.
    destruct (rafId (setVelocity 0 (setLast None None e))); repeat split; reflexivity. }
  destruct Hfields as (H1 & H2 & H3 & H4 & H5).
  repeat split; try assumption;
    unfold handleTouchMove; rewrite H1; cbn [viewport velocity lastY setLast];
    assumption || reflexivity.
Qed.

Lemma second_finger_resets_tracking_witness :
  List.length [100; 240] <> 1%nat
  /\ velocity (handleTouchMove [100; 240] 5 dragging) = 0
  /\ viewport (handleTouchMove [60] 9 (handleTouchMove [100; 240] 5 dragging))
     = viewport dragging.
Proof.
  assert (Hlen : List.length [100; 240] <> 1%nat) by discriminate.
  destruct (@second_finger_resets_tracking dragging [100; 240] 5 60 9 Hlen)
    as (_ & _ & Hv & _ & _ & Hview & _).
  split; [exact Hlen|]. split; [exact Hv | exact Hview].
Defined.

End Gestures.

(** ** Part VIII: device-flow polling *)

Section Polling.

Import DeviceFlow.
Local Open Scope Q_scope.

Lemma slowDown_floored (prev : option Q) :
  (forall ms, prev = Some ms -> 1000 <= ms) -> 1000 <= slowDown prev.
Proof.
  intros H. unfold slowDown. destruct prev as [ms|]; [|discriminate].
  destruct (Qeq_bool ms 0); [discriminate|].
  specialize (H ms eq_refl). lra.
Qed.

Lemma onPollResult_floored (st : Polling) (r : PollResult) :
  floored st -> floored (onPollResult st r).
Proof.
  intros H. destruct r as [| |status]; cbn [onPollResult].
  - exact H.
  - intros ms Hms. discriminate.
  - destruct (statusIs status "slow_down");
      destruct (statusIs status "expired_token" || statusIs status "access_denied");
      try (intros ms Hms; discriminate); try exact H.
    intros ms Hms. cbn [pollIntervalMs] in Hms. inversion Hms; subst ms.
    apply slowDown_floored. exact H.
Qed.

(** X18: the poll interval is never below one second.  Whatever interval
    the server names when the flow starts (zero and negative ones included)
    and whatever the polls come back with afterwards, an interval held in the
    state is at least 1000 ms. *)
Theorem poll_interval_at_least_a_second
    (payload : DeviceFlowStartResponse) (st : Polling) (results : list PollResult) :
  floored (fold_left onPollResult results (startConnect payload st)).
Proof.
  assert (H0 : floored (startConnect payload st)).
  { intros ms Hms. cbn in Hms. inversion Hms; subst ms.
    assert (H1 : 1 <= Qmax 1 (interval payload)) by apply Q.le_max_l.
    lra. }
  revert H0. generalize (startConnect payload st). clear st.
  induction results as [|r results IH]; intros st H; [exact H|].
  cbn [fold_left]. apply IH. apply onPollResult_floored. exact H.
Qed.

Lemma poll_interval_at_least_a_second_witness :
  let st := fold_left onPollResult
              [NotConnected (Some "authorization_pending"%string);
               NotConnected (Some "slow_down"%string); PollThrew]
              (startConnect (mkStart "dc" 0) (mkPolling None None)) in
  pollIntervalMs st = Some (1 * 1000 + 5000) /\ 1000 <= 1 * 1000 + 5000.
Proof.
  intro st. split; [reflexivity|].
  apply (@poll_interval_at_least_a_second (mkStart "dc" 0) (mkPolling None None)
           [NotConnected (Some "authorization_pending"%string);
            NotConnected (Some "slow_down"%string); PollThrew]).
  reflexivity.
Defined.

Lemma slow_downs_add (n : nat) :
  forall (st : Polling) (ms : Q),
    pollIntervalMs st = Some ms -> 1000 <= ms ->
    exists ms',
      pollIntervalMs
        (fold_left onPollResult (repeat (NotConnected (Some "slow_down"%string)) n) st)
      = Some ms'
      /\ ms' == ms + 5000 * inject_Z (Z.of_nat n)
      /\ flow (fold_left onPollResult
                 (repeat (NotConnected (Some "slow_down"%string)) n) st)
         = flow st.
Proof.
  induction n as [|n IH]; intros st ms Hms Hfloor.
  - exists ms. cbn [repeat fold_left]. split; [exact Hms|].
    split; [change (inject_Z (Z.of_nat 0)) with 0; ring | reflexivity].
  - cbn [repeat fold_left].
    assert (Hstep : onPollResult st (NotConnected (Some "slow_down"%string))
                    = mkPolling (flow st) (Some (ms + 5000))).
    { cbn. rewrite Hms. cbn.
      destruct (Qeq_bool ms 0) eqn:Hz; [|reflexivity].
      apply Qeq_bool_iff in Hz. exfalso. lra. }
    rewrite Hstep.
    destruct (IH (mkPolling (flow st) (Some (ms + 5000))) (ms + 5000) eq_refl)
      as (ms' & H1 & H2 & H3); [lra|].
    exists ms'. split; [exact H1|]. split; [|exact H3].
    rewrite H2, inject_succ. ring.
Qed.

(** X19: the back-off is linear.  While the server keeps answering
    [slow_down], [n] polls raise the interval by [5000 * n] ms over the one
    the flow started with, and the flow stays open. *)
Theorem slow_down_backs_off_linearly
    (payload : DeviceFlowStartResponse) (st : Polling) (n : nat) :
  let polled := fold_left onPollResult
                 (repeat (NotConnected (Some "slow_down"%string)) n)
                 (startConnect payload st) in
  flow polled = Some payload
  /\ exists ms, pollIntervalMs polled = Some ms
                /\ ms == Qmax 1 (interval payload) * 1000
                         + 5000 * inject_Z (Z.of_nat n).
Proof.
  intro polled.
  assert (Hfloor : 1000 <= Qmax 1 (interval payload) * 1000).
  { assert (H1 : 1 <= Qmax 1 (interval payload)) by apply Q.le_max_l. lra. }
  destruct (@slow_downs_add n (startConnect payload st)
              (Qmax 1 (interval payload) * 1000) eq_refl Hfloor)
    as (ms & H1 & H2 & H3).
  split; [exact H3|]. exists ms. split; [exact H1 | exact H2].
Qed.

Lemma flow_stays_closed (results : list PollResult) :
  forall st, flow st = None -> flow (fold_left onPollResult results st) = None.
Proof.
  induction results as [|r results IH]; intros st H; [exact H|].
  cbn [fold_left]. apply IH.
  destruct r as [| |status]; cbn [onPollResult]; [exact H | reflexivity |].
  destruct (statusIs status "slow_down");
    destruct (statusIs status "expired_token" || statusIs status "access_denied");
    cbn [flow stopPolling]; try reflexivity; exact H.
Qed.

Lemma armed_needs_flow (st : Polling) : flow st = None -> armed st = false.
Proof. intros H. unfold armed. rewrite H. reflexivity. Qed.

(** X20: a flow that has ended is not polled again.  After a poll that
    reports the account connected, or the status [expired_token] or
    [access_denied], and after Cancel, no poll result that still arrives
    (a [slow_down] included, which sets an interval again) re-arms the
    timer. *)
Theorem ended_flow_is_not_polled_again
    (st : Polling) (r : PollResult) (late : list PollResult) :
  ends r = true ->
  armed (fold_left onPollResult late (onPollResult st r)) = false
  /\ armed (fold_left onPollResult late (cancel st)) = false.
Proof.
  intros Hr. split; apply armed_needs_flow; apply flow_stays_closed.
  - destruct r as [| |status]; cbn [ends] in Hr; [discriminate | reflexivity |].
    cbn [onPollResult]. rewrite Hr.
    destruct (statusIs status "slow_down"); reflexivity.
  - reflexivity.
Qed.

Lemma ended_flow_is_not_polled_again_witness :
  let st := startConnect (mkStart "dc" 5) (mkPolling None None) in
  let slow := NotConnected (Some "slow_down"%string) in
  armed st = true
  /\ ends (NotConnected (Some "access_denied"%string)) = true
  /\ armed (fold_left onPollResult [slow; slow]
              (onPollResult st (NotConnected (Some "access_denied"%string)))) = false
  /\ pollIntervalMs (fold_left onPollResult [slow]
                       (onPollResult st (NotConnected (Some "access_denied"%string))))
     = Some 5000.
Proof.
  intros st slow.
  destruct (@ended_flow_is_not_polled_again st
              (NotConnected (Some "access_denied"%string)) [slow; slow] eq_refl)
    as [H _].
  split; [reflexivity|]. split; [reflexivity|]. split; [exact H | reflexivity].
Defined.

End Polling.
